(** * Block layout engine of the glTF importer (material/block.py)

    A shallow embedding of [addons/io_scene_gltf/material/block.py].

    The Python module works on mutable objects: host nodes (whose
    [location] is read and written), [Block] objects (a children list and
    two cached corners) and [mathutils.Vector] objects, which are mutable:
    [v += d] adds [d] into the object [v] and rebinds the name to that
    same object.  Objects live in a store and are named by references,
    so that two attributes bound to the same Vector object see each
    other's in-place updates, as they do in Python.

    Coordinates are exact rationals ([Qc]): the rounding of the host's
    floating-point numbers is not part of this model. *)

From stdpp Require Import base numbers list option strings.
From Stdlib Require Import QArith Qcanon.

Open Scope Qc_scope.

(** ** Vectors (the values held by a [mathutils.Vector]) *)

Record Vector := mkV { vx : Qc; vy : Qc }.

Definition qc (z : Z) : Qc := Q2Qc (inject_Z z).

Definition vadd (a b : Vector) : Vector := mkV (vx a + vx b) (vy a + vy b).
Definition vsub (a b : Vector) : Vector := mkV (vx a - vx b) (vy a - vy b).
Definition vzero : Vector := mkV (qc 0) (qc 0).

(** Python's two-argument [min] and [max] keep their first argument
    unless the second one is strictly better. *)
Definition py_min (a b : Qc) : Qc := if decide (b < a) then b else a.
Definition py_max (a b : Qc) : Qc := if decide (a < b) then b else a.

(** [max(iterable, default=d)] *)
Definition py_max_default (l : list Qc) (d : Qc) : Qc :=
  match l with
  | [] => d
  | a :: l' => foldl py_max a l'
  end.

(** ** Objects and the store *)

(** References into the store. *)
Abbreviation ref := nat (only parsing).

(** A host node: the attributes this module reads or writes. *)
Record Node := mkNode {
  node_location : Vector;
  node_width : Qc;
  node_height : Qc;
  node_parent : option ref;
  node_label : string;
  node_shrink : bool;
  node_idname : string
}.

(** A [Block] object.  [top_left_ref] and [bottom_right_ref] are the
    Vector objects its attributes [top_left] and [bottom_right] are bound
    to. *)
Record Block := mkBlock {
  children : list ref;
  top_left_ref : ref;
  bottom_right_ref : ref
}.

Inductive obj :=
| ONode (n : Node)
| OBlock (b : Block)
| OVec (v : Vector).

(** The store: the object a reference names is found at that index. *)
Abbreviation heap := (list obj) (only parsing).

(** The host's node tree, as far as [tree.nodes.new] needs it: the
    attributes a newly created node of a given kind starts with. *)
Record NodeTree := mkTree { nodes_new_default : string -> Node }.

(** ** A state-and-failure monad over the store

    [None] stands for a Python exception (an attribute missing on an
    object of the wrong kind) or for exhausted recursion fuel. *)

Definition M (A : Type) : Type := heap -> option (A * heap).

Definition ret {A} (a : A) : M A := fun h => Some (a, h).
Definition bind {A B} (m : M A) (k : A -> M B) : M B :=
  fun h => match m h with
           | Some (a, h') => k a h'
           | None => None
           end.
Definition fail {A} : M A := fun _ => None.

Notation "x <~ c ;; k" := (bind c (fun x => k))
  (at level 100, c at next level, right associativity).
Notation "c ;;; k" := (bind c (fun _ => k))
  (at level 100, right associativity).

Definition alloc (o : obj) : M ref := fun h => Some (length h, h ++ [o]).

Definition read_node (r : ref) : M Node :=
  fun h => match h !! r with Some (ONode n) => Some (n, h) | _ => None end.
Definition read_block (r : ref) : M Block :=
  fun h => match h !! r with Some (OBlock b) => Some (b, h) | _ => None end.
Definition read_vec (r : ref) : M Vector :=
  fun h => match h !! r with Some (OVec v) => Some (v, h) | _ => None end.

Definition write_node (r : ref) (n : Node) : M unit :=
  fun h => match h !! r with
           | Some (ONode _) => Some (tt, <[r := ONode n]> h)
           | _ => None
           end.
Definition write_block (r : ref) (b : Block) : M unit :=
  fun h => match h !! r with
           | Some (OBlock _) => Some (tt, <[r := OBlock b]> h)
           | _ => None
           end.
Definition write_vec (r : ref) (v : Vector) : M unit :=
  fun h => match h !! r with
           | Some (OVec _) => Some (tt, <[r := OVec v]> h)
           | _ => None
           end.

(** [type(block) == Block] *)
Definition is_Block (r : ref) : M bool :=
  fun h => match h !! r with
           | Some (OBlock _) => Some (true, h)
           | Some _ => Some (false, h)
           | None => None
           end.

(** [for x in l: body(x)] *)
Fixpoint for_each {A} (l : list A) (body : A -> M unit) : M unit :=
  match l with
  | [] => ret tt
  | x :: l' => body x ;;; for_each l' body
  end.

(** [[f(x) for x in l]] *)
Fixpoint map_M {A B} (f : A -> M B) (l : list A) : M (list B) :=
  match l with
  | [] => ret []
  | x :: l' => y <~ f x ;; ys <~ map_M f l' ;; ret (y :: ys)
  end.

(** A Vector as an expression yields it: either an object that already
    exists in the store (and may be bound elsewhere), or a Vector just
    built, to which nothing else refers. *)
Inductive pyvec :=
| Obj (r : ref)
| Tmp (v : Vector).

(** Reading the components of a Vector. *)
Definition value (p : pyvec) : M Vector :=
  match p with
  | Obj r => read_vec r
  | Tmp v => ret v
  end.

(** Binding an attribute to a Vector: an existing object is shared, a
    new one becomes an object of the store. *)
Definition store (p : pyvec) : M ref :=
  match p with
  | Obj r => ret r
  | Tmp v => alloc (OVec v)
  end.

(** [vec += delta] on a Vector object: in place. *)
Definition iadd (r : ref) (delta : Vector) : M unit :=
  v <~ read_vec r ;; write_vec r (vadd v delta).

(** ** Attribute writes *)

Definition set_location (v : Vector) (n : Node) : Node :=
  mkNode v (node_width n) (node_height n) (node_parent n) (node_label n)
         (node_shrink n) (node_idname n).
Definition set_width (w : Qc) (n : Node) : Node :=
  mkNode (node_location n) w (node_height n) (node_parent n) (node_label n)
         (node_shrink n) (node_idname n).
Definition set_height (x : Qc) (n : Node) : Node :=
  mkNode (node_location n) (node_width n) x (node_parent n) (node_label n)
         (node_shrink n) (node_idname n).
Definition set_parent (p : option ref) (n : Node) : Node :=
  mkNode (node_location n) (node_width n) (node_height n) p (node_label n)
         (node_shrink n) (node_idname n).
Definition set_label (s : string) (n : Node) : Node :=
  mkNode (node_location n) (node_width n) (node_height n) (node_parent n) s
         (node_shrink n) (node_idname n).
Definition set_shrink (x : bool) (n : Node) : Node :=
  mkNode (node_location n) (node_width n) (node_height n) (node_parent n)
         (node_label n) x (node_idname n).

(** [node.attr = x] *)
Definition setattr_node (r : ref) (f : Node -> Node) : M unit :=
  n <~ read_node r ;; write_node r (f n).

Definition set_children (l : list ref) (b : Block) : Block :=
  mkBlock l (top_left_ref b) (bottom_right_ref b).
Definition set_top_left (r : ref) (b : Block) : Block :=
  mkBlock (children b) r (bottom_right_ref b).
Definition set_bottom_right (r : ref) (b : Block) : Block :=
  mkBlock (children b) (top_left_ref b) r.

(** [self.attr = x] on a Block *)
Definition setattr_block (r : ref) (f : Block -> Block) : M unit :=
  b <~ read_block r ;; write_block r (f b).

(** ** Module-level functions *)

(** [top_left(block)]: a Block hands out its own [top_left] object, a
    node a copy of its location. *)
Definition top_left (block : ref) : M pyvec :=
  isb <~ is_Block block ;;
  if isb : bool then
    b <~ read_block block ;; ret (Obj (top_left_ref b))
  else
    n <~ read_node block ;; ret (Tmp (node_location n)).

(** [bottom_right(block)]: always a new Vector. *)
Definition bottom_right (block : ref) : M pyvec :=
  isb <~ is_Block block ;;
  if isb : bool then
    b <~ read_block block ;;
    v <~ read_vec (bottom_right_ref b) ;;
    ret (Tmp v)
  else
    n <~ read_node block ;;
    ret (Tmp (vadd (node_location n) (mkV (node_width n) (- node_height n)))).

Definition width (block : ref) : M Qc :=
  tl <~ top_left block ;;
  br <~ bottom_right block ;;
  tlv <~ value tl ;;
  brv <~ value br ;;
  ret (vx brv - vx tlv).

Definition height (block : ref) : M Qc :=
  tl <~ top_left block ;;
  br <~ bottom_right block ;;
  tlv <~ value tl ;;
  brv <~ value br ;;
  ret (vy tlv - vy brv).

(** [Block.move_by], with the call back into the module-level [move_by]
    as a parameter. *)
Definition Block_move_by (move_by : ref -> Vector -> M unit)
    (self : ref) (delta : Vector) : M unit :=
  b <~ read_block self ;;
  for_each (children b) (fun child => move_by child delta) ;;;
  b <~ read_block self ;;
  iadd (top_left_ref b) delta ;;;
  b <~ read_block self ;;
  iadd (bottom_right_ref b) delta.

(** [move_by(block, delta)]; [fuel] bounds the depth of the recursion.
    [delta] is a value: every delta this module builds ([pos - top_left]
    in [move_to]) is a new Vector, to which nothing else refers. *)
Fixpoint move_by (fuel : nat) (block : ref) (delta : Vector) : M unit :=
  match fuel with
  | O => fail
  | S fuel' =>
      isb <~ is_Block block ;;
      if isb : bool then
        Block_move_by (move_by fuel') block delta
      else
        n <~ read_node block ;;
        setattr_node block (set_location (vadd (node_location n) delta))
  end.

Definition move_to (fuel : nat) (block : ref) (pos : Vector) : M unit :=
  tl <~ top_left block ;;
  tlv <~ value tl ;;
  move_by fuel block (vsub pos tlv).

Definition center_at_origin (fuel : nat) (block : ref) : M unit :=
  w <~ width block ;;
  h <~ height block ;;
  move_to fuel block (mkV (- w / qc 2) (h / qc 2)).

(** ** The Block class *)

(** [Block.add] *)
Definition Block_add (self child : ref) : M unit :=
  b <~ read_block self ;;
  setattr_block self (set_children (children b ++ [child])) ;;;
  b <~ read_block self ;;
  if decide (length (children b) = 1%nat) then
    tl <~ top_left child ;;
    r <~ store tl ;;
    setattr_block self (set_top_left r) ;;;
    br <~ bottom_right child ;;
    r <~ store br ;;
    setattr_block self (set_bottom_right r)
  else
    tl <~ top_left child ;;
    br <~ bottom_right child ;;
    b <~ read_block self ;;
    stl <~ read_vec (top_left_ref b) ;;
    tlv <~ value tl ;;
    r <~ alloc (OVec (mkV (py_min (vx stl) (vx tlv))
                          (py_max (vy stl) (vy tlv)))) ;;
    setattr_block self (set_top_left r) ;;;
    b <~ read_block self ;;
    sbr <~ read_vec (bottom_right_ref b) ;;
    brv <~ value br ;;
    r <~ alloc (OVec (mkV (py_max (vx sbr) (vx brv))
                          (py_min (vy sbr) (vy brv)))) ;;
    setattr_block self (set_bottom_right r).

(** The constructor [Block.__init__].  The two Vectors of [__init__] are allocated
    before the Block object that holds them; reference numbers are not
    observable, so the order of allocation is immaterial. *)
Definition Block_init (blocks : list ref) : M ref :=
  tl <~ alloc (OVec (mkV (qc 0) (qc 0))) ;;
  br <~ alloc (OVec (mkV (qc 0) (qc 0))) ;;
  self <~ alloc (OBlock (mkBlock [] tl br)) ;;
  for_each blocks (fun block => Block_add self block) ;;;
  ret self.

(** The loop of [row_align_center]; [x] and [y] are the loop's
    variables. *)
Fixpoint row_align_center_loop (fuel : nat) (blocks : list ref)
    (max_height gutter x y : Qc) : M unit :=
  match blocks with
  | [] => ret tt
  | block :: rest =>
      w <~ width block ;;
      h <~ height block ;;
      let dh := (max_height - h) / qc 2 in
      move_to fuel block (mkV x (y - dh)) ;;;
      row_align_center_loop fuel rest max_height gutter (x + (w + gutter)) y
  end.

(** [Block.row_align_center] *)
Definition Block_row_align_center (fuel : nat) (blocks : list ref)
    (gutter : Qc) : M ref :=
  hs <~ map_M height blocks ;;
  let max_height := py_max_default hs (qc 0) in
  row_align_center_loop fuel blocks max_height gutter (qc 0) (qc 0) ;;;
  Block_init blocks.

(** The loop of [col_align_right]. *)
Fixpoint col_align_right_loop (fuel : nat) (blocks : list ref)
    (max_width gutter x y : Qc) : M unit :=
  match blocks with
  | [] => ret tt
  | block :: rest =>
      w <~ width block ;;
      h <~ height block ;;
      let dw := max_width - w in
      move_to fuel block (mkV (x + dw) y) ;;;
      col_align_right_loop fuel rest max_width gutter x (y - (h + gutter))
  end.

(** [Block.col_align_right] *)
Definition Block_col_align_right (fuel : nat) (blocks : list ref)
    (gutter : Qc) : M ref :=
  ws <~ map_M width blocks ;;
  let max_width := py_max_default ws (qc 0) in
  col_align_right_loop fuel blocks max_width gutter (qc 0) (qc 0) ;;;
  Block_init blocks.

(** [tree.nodes.new(idname)]: the host creates a node. *)
Definition nodes_new (tree : NodeTree) (idname : string) : M ref :=
  alloc (ONode (nodes_new_default tree idname)).

(** The local function [add_to_frame] of [framify]. *)
Fixpoint add_to_frame (fuel : nat) (frame : ref) (block : ref) : M unit :=
  match fuel with
  | O => fail
  | S fuel' =>
      isb <~ is_Block block ;;
      if isb : bool then
        b <~ read_block block ;;
        for_each (children b) (fun child => add_to_frame fuel' frame child)
      else
        setattr_node block (set_parent (Some frame)) ;;;
        n <~ read_node block ;;
        setattr_node block (set_location (node_location n))
  end.

Definition padding : Qc := qc 30.

(** [Block.framify] *)
Definition Block_framify (fuel : nat) (self : ref) (tree : NodeTree)
    (label : string) : M unit :=
  move_to fuel self (mkV padding padding) ;;;
  frame <~ nodes_new tree "NodeFrame" ;;
  setattr_node frame (set_location (mkV (qc 0) (qc 0))) ;;;
  setattr_node frame (set_label label) ;;;
  w <~ width self ;;
  h <~ height self ;;
  setattr_node frame (set_width (w + qc 2 * padding)) ;;;
  setattr_node frame (set_height (h + qc 2 * padding)) ;;;
  setattr_node frame (set_shrink false) ;;;
  add_to_frame fuel frame self ;;;
  setattr_block self (set_children [frame]) ;;;
  b <~ read_block self ;;
  iadd (bottom_right_ref b) (mkV (qc 2 * padding) (qc 2 * padding)).

(** ** Observations used in the statements *)

(** The value of [top_left(e)], [bottom_right(e)], [width(e)] and
    [height(e)] in a store. *)
Definition top_left_val (h : heap) (e : ref) : option Vector :=
  fst <$> (tl <~ top_left e ;; v <~ value tl ;; ret v) h.
Definition bottom_right_val (h : heap) (e : ref) : option Vector :=
  fst <$> (br <~ bottom_right e ;; v <~ value br ;; ret v) h.
Definition width_val (h : heap) (e : ref) : option Qc := fst <$> width e h.
Definition height_val (h : heap) (e : ref) : option Qc := fst <$> height e h.

(** The store after running a command. *)
Definition exec {A} (m : M A) (h : heap) : option heap := snd <$> m h.

(** ** Auxiliary notions for the proofs *)

(** What [move_by] and [add_to_frame] look at to find their way through
    the store: the kind of each object and, for a Block, its attributes.
    Neither function changes it. *)
Inductive kind := KNode | KBlock (b : Block) | KVec.

Definition kind_of (o : obj) : kind :=
  match o with
  | ONode _ => KNode
  | OBlock b => KBlock b
  | OVec _ => KVec
  end.

Definition shape (h : heap) : list kind := kind_of <$> h.

(** The in-place effect of a move on one object: a Vector object or a
    node's location is translated, a Block object is left alone. *)
Definition bump_obj (delta : Vector) (o : obj) : obj :=
  match o with
  | ONode n => ONode (set_location (vadd (node_location n) delta) n)
  | OBlock b => OBlock b
  | OVec v => OVec (vadd v delta)
  end.

Definition bump (delta : Vector) (h : heap) (c : ref) : heap :=
  alter (bump_obj delta) c h.

Definition is_vec (h : heap) (r : ref) : bool :=
  match h !! r with Some (OVec _) => true | _ => false end.

(** The objects [move_by] updates, in the order it updates them and with
    repetition: the nodes below [block], and for every Block below it
    (itself included) the Vector objects its [top_left] and
    [bottom_right] are bound to.  [None] if [fuel] runs out, or if
    something reached is not an element. *)
Fixpoint cells (fuel : nat) (h : heap) (block : ref) : option (list ref) :=
  match fuel with
  | O => None
  | S fuel' =>
      match h !! block with
      | Some (OBlock b) =>
          css ← mapM (cells fuel' h) (children b);
          if is_vec h (top_left_ref b) && is_vec h (bottom_right_ref b)
          then Some (concat css ++ [top_left_ref b; bottom_right_ref b])
          else None
      | Some (ONode _) => Some [block]
      | _ => None
      end
  end.

(** [e] is an element of nesting depth below [fuel]: a node, or a Block
    whose corners are Vector objects and whose children are elements. *)
Definition well_formed (fuel : nat) (h : heap) (e : ref) : Prop :=
  is_Some (cells fuel h e).

Global Instance well_formed_dec fuel h e : Decision (well_formed fuel h e).
Proof. unfold well_formed. apply _. Defined.

(** [e] is well formed and no object is updated twice when [e] moves. *)
Definition separate (fuel : nat) (h : heap) (e : ref) : Prop :=
  ∃ cs, cells fuel h e = Some cs ∧ NoDup cs.

Global Instance separate_dec fuel h e : Decision (separate fuel h e).
Proof.
  unfold separate. destruct (cells fuel h e) as [cs|].
  - destruct (decide (NoDup cs)) as [Hnd|Hnd].
    + left. by exists cs.
    + right. intros (cs' & E & Hnd'). by simplify_eq.
  - right. by intros (cs' & E & _).
Defined.

(** The corners of an element, read off the store. *)
Definition tl_of (h : heap) (e : ref) : option Vector :=
  match h !! e with
  | Some (ONode n) => Some (node_location n)
  | Some (OBlock b) =>
      match h !! top_left_ref b with Some (OVec v) => Some v | _ => None end
  | _ => None
  end.

Definition br_of (h : heap) (e : ref) : option Vector :=
  match h !! e with
  | Some (ONode n) =>
      Some (vadd (node_location n) (mkV (node_width n) (- node_height n)))
  | Some (OBlock b) =>
      match h !! bottom_right_ref b with Some (OVec v) => Some v | _ => None end
  | _ => None
  end.

(** [contains h g l]: [l] is [g] or is reached from [g] through children
    lists. *)
Inductive contains (h : heap) : ref → ref → Prop :=
| contains_self r : contains h r r
| contains_child r b c l :
    h !! r = Some (OBlock b) → c ∈ children b → contains h c l →
    contains h r l.

Definition parent_of (h : heap) (l : ref) : option (option ref) :=
  match h !! l with
  | Some (ONode n) => Some (node_parent n)
  | _ => None
  end.

(** What [add_to_frame] keeps: the shape of the store, a parent already
    set to [frame], and the Vector objects. *)
Definition framed (frame : ref) (h h' : heap) : Prop :=
  shape h' = shape h ∧
  (∀ l, parent_of h l = Some (Some frame) →
        parent_of h' l = Some (Some frame)) ∧
  ∀ r v, h !! r = Some (OVec v) → h' !! r = Some (OVec v).

(** ** Auxiliary notions for the constructor and the alignment loops *)

(** [grows self h h']: from [h] to [h'] objects were added, and of the
    old ones at most [self] was updated. *)
Definition grows (self : ref) (h h' : heap) : Prop :=
  (length h ≤ length h')%nat ∧
  ∀ r, r ≠ self → (r < length h)%nat → h' !! r = h !! r.

(** The union of two boxes, as [Block.add] computes it. *)
Definition union_tl (a c : Vector) : Vector :=
  mkV (py_min (vx a) (vx c)) (py_max (vy a) (vy c)).
Definition union_br (a c : Vector) : Vector :=
  mkV (py_max (vx a) (vx c)) (py_min (vy a) (vy c)).

(** Both corners of an element. *)
Definition corners_of (h : heap) (e : ref) : option (Vector * Vector) :=
  tl ← tl_of h e; br ← br_of h e; Some (tl, br).

(** The box [Block.add] has cached after adding children with the given
    corners; [first] tells that no child was added before. *)
Fixpoint box_after (first : bool) (acc : Vector * Vector)
    (cs : list (Vector * Vector)) : Vector * Vector :=
  match cs with
  | [] => acc
  | c :: cs' =>
      box_after false
        (if first then c else (union_tl acc.1 c.1, union_br acc.2 c.2)) cs'
  end.





(** [x] is in [l] and is below everything in [l] for the order [R]. *)
Definition extremum (R : relation Qc) (x : Qc) (l : list Qc) : Prop :=
  x ∈ l ∧ ∀ y, y ∈ l → R x y.

(** ** Elements, adoption by a frame, and the boxes of a layout *)

(** [element h fuel e]: [e] is a node, or a Block whose corners are
    bound to Vector objects and whose children are elements, nested less
    than [fuel] deep. *)
Inductive element (h : heap) : nat → ref → Prop :=
| element_node fuel e n :
    h !! e = Some (ONode n) → element h (S fuel) e
| element_block fuel e b :
    h !! e = Some (OBlock b) →
    is_vec h (top_left_ref b) = true →
    is_vec h (bottom_right_ref b) = true →
    (∀ c, c ∈ children b → element h fuel c) →
    element h (S fuel) e.

(** The effect of [add_to_frame] on one object: a node gets the frame as
    parent, anything else is left alone. *)
Definition adopt_obj (frame : ref) (o : obj) : obj :=
  match o with
  | ONode n => ONode (set_parent (Some frame) n)
  | _ => o
  end.

Definition adopt (frame : ref) (h : heap) (c : ref) : heap :=
  alter (adopt_obj frame) c h.



(** ** Concrete stores and programs *)

Global Instance Vector_eq_dec : EqDecision Vector.
Proof. solve_decision. Defined.

(** [top_left(e)], read as a pair of numbers. *)
Definition read_top_left (e : ref) : M Vector :=
  tl <~ top_left e ;; v <~ value tl ;; ret v.

(** The store a command leaves behind. *)
Definition store_after {A} (m : M A) (h : heap) : heap :=
  match m h with
  | Some (_, h') => h'
  | None => []
  end.

(** A shader node as the host makes it, placed and sized. *)
Definition shader_node (x y w ht : Z) : Node :=
  mkNode (mkV (qc x) (qc y)) (qc w) (qc ht) None "" false "ShaderNodeEmission".

(** A host tree whose new nodes start at (5, 5) with size 140 x 100. *)
Definition example_tree : NodeTree :=
  mkTree (λ idname, mkNode (mkV (qc 5) (qc 5)) (qc 140) (qc 100) None ""
                           true idname).

(** A node of size 2 x 2 at (1, 0). *)
Definition one_node : heap := [ONode (shader_node 1 0 2 2)].

(** [c = Block(node); p = Block(c)]: a Block whose only child is a
    Block.  In [one_node], [c] is reference 3 and [p] is reference 8. *)
Definition nested_block : M ref :=
  c <~ Block_init [0%nat] ;; Block_init [c].

Definition nested_store : heap := store_after nested_block one_node.

(** A node of size 10 x 100 at the origin. *)
Definition tall_node : heap := [ONode (shader_node 0 0 10 100)].

(** Three nodes of widths 5, 5, 5 and heights 10, 20, 30. *)
Definition three_nodes : heap :=
  [ONode (shader_node 7 8 5 10); ONode (shader_node 3 4 5 20);
   ONode (shader_node 1 1 5 30)].

(** Two nodes of widths 10 and 20 and heights 7 and 9. *)
Definition two_nodes : heap :=
  [ONode (shader_node 7 8 10 7); ONode (shader_node 3 4 20 9)].

(** [Block()] beside two nodes: the empty Block is reference 4. *)
Definition empty_block_store : heap := store_after (Block_init []) two_nodes.

(** [Block(n0, n1)] beside a third node: the Block is reference 5. *)
Definition group_store : heap :=
  store_after (Block_init [0; 1]%nat) three_nodes.

(** The corners of the two nodes of [two_nodes]. *)
Definition two_corners : list (Vector * Vector) :=
  [(mkV (qc 7) (qc 8), mkV (qc 17) (qc 1));
   (mkV (qc 3) (qc 4), mkV (qc 23) (qc (-5)))].

(** * Proofs *)

Ltac by_evaluation :=
  apply (bool_decide_eq_true_1 _); vm_compute; reflexivity.

Section vectors.
Implicit Types a b d v p : Vector.



End vectors.

Section monad.
Context {A B : Type}.

Lemma bind_Some (m : M A) (k : A → M B) h a h1 :
  m h = Some (a, h1) → bind m k h = k a h1.
Proof. unfold bind. by intros ->. Qed.

Lemma bind_None (m : M A) (k : A → M B) h :
  m h = None → bind m k h = None.
Proof. unfold bind. by intros ->. Qed.

Lemma bind_inv (m : M A) (k : A → M B) h r :
  bind m k h = Some r → ∃ a h1, m h = Some (a, h1) ∧ k a h1 = Some r.
Proof.
  unfold bind. destruct (m h) as [[a h1]|]; [|done]. eauto.
Qed.
End monad.

Section lookups.
Implicit Types (h : heap) (r : ref).

Lemma is_Block_block h r b :
  h !! r = Some (OBlock b) → is_Block r h = Some (true, h).
Proof. unfold is_Block. by intros ->. Qed.

Lemma is_Block_node h r n :
  h !! r = Some (ONode n) → is_Block r h = Some (false, h).
Proof. unfold is_Block. by intros ->. Qed.

Lemma read_block_Some h r b :
  h !! r = Some (OBlock b) → read_block r h = Some (b, h).
Proof. unfold read_block. by intros ->. Qed.

Lemma read_node_Some h r n :
  h !! r = Some (ONode n) → read_node r h = Some (n, h).
Proof. unfold read_node. by intros ->. Qed.

Lemma read_vec_Some h r v :
  h !! r = Some (OVec v) → read_vec r h = Some (v, h).
Proof. unfold read_vec. by intros ->. Qed.

Lemma is_vec_true h r : is_vec h r = true → ∃ v, h !! r = Some (OVec v).
Proof.
  unfold is_vec. destruct (h !! r) as [[]|]; try done. eauto.
Qed.

Lemma insert_as_alter h r (f : obj → obj) o :
  h !! r = Some o → <[r := f o]> h = alter f r h.
Proof.
  intros Hr. rewrite list_insert_alter.
  apply list_alter_ext; [|done]. intros x Hx. congruence.
Qed.
End lookups.

Section bump.
Implicit Types (h : heap) (c r : ref) (d : Vector).

Lemma kind_of_bump_obj d o : kind_of (bump_obj d o) = kind_of o.
Proof. by destruct o. Qed.

Lemma shape_bump d h c : shape (bump d h c) = shape h.
Proof.
  unfold shape, bump.
  rewrite (list_fmap_alter kind_of _ id).
  - by apply list_alter_id.
  - apply Forall_forall. intros o _. apply kind_of_bump_obj.
Qed.

Lemma shape_bump_all d cs h : shape (foldl (bump d) h cs) = shape h.
Proof.
  revert h. induction cs as [|c cs IH]; intros h; simpl; [done|].
  by rewrite IH, shape_bump.
Qed.





Lemma bump_lookup_ne d h c r : c ≠ r → bump d h c !! r = h !! r.
Proof. intros. unfold bump. by apply list_lookup_alter_ne. Qed.

Lemma bump_lookup d h c : bump d h c !! c = bump_obj d <$> h !! c.
Proof. unfold bump. apply list_lookup_alter_eq. Qed.
End bump.

Section shape.
Implicit Types (h : heap) (r : ref).

Lemma shape_lookup h h' r :
  shape h = shape h' → kind_of <$> h !! r = kind_of <$> h' !! r.
Proof.
  unfold shape. intros E. by rewrite <- !list_lookup_fmap, E.
Qed.

Lemma shape_block h h' r b :
  shape h = shape h' → h !! r = Some (OBlock b) → h' !! r = Some (OBlock b).
Proof.
  intros E Hr. pose proof (shape_lookup h h' r E) as K.
  rewrite Hr in K. destruct (h' !! r) as [[]|]; simpl in K; congruence.
Qed.

Lemma shape_node h h' r n :
  shape h = shape h' → h !! r = Some (ONode n) →
  ∃ n', h' !! r = Some (ONode n').
Proof.
  intros E Hr. pose proof (shape_lookup h h' r E) as K.
  rewrite Hr in K. destruct (h' !! r) as [[]|]; simpl in K; try congruence.
  eauto.
Qed.

Lemma shape_is_vec h h' r : shape h = shape h' → is_vec h r = is_vec h' r.
Proof.
  intros E. pose proof (shape_lookup h h' r E) as K. unfold is_vec.
  destruct (h !! r) as [[]|], (h' !! r) as [[]|]; simpl in K; congruence.
Qed.

Lemma cells_shape fuel h h' r :
  shape h = shape h' → cells fuel h r = cells fuel h' r.
Proof.
  intros E. revert r. induction fuel as [|fuel IH]; intros r; [done|].
  simpl. pose proof (shape_lookup h h' r E) as K.
  destruct (h !! r) as [[n|b|v]|], (h' !! r) as [[n'|b'|v']|];
    simpl in K; try congruence.
  assert (b' = b) as -> by congruence.
  rewrite (mapM_ext _ _ _ IH).
  by rewrite !(shape_is_vec h h' _ E).
Qed.
End shape.

Section move_by.
Implicit Types (h : heap) (r : ref) (d : Vector).

Lemma iadd_bump h r d :
  is_vec h r = true → iadd r d h = Some (tt, bump d h r).
Proof.
  intros [v Hv]%is_vec_true. unfold iadd.
  rewrite (bind_Some _ _ _ _ _ (read_vec_Some _ _ _ Hv)).
  unfold write_vec. rewrite Hv. unfold bump.
  by rewrite <- (insert_as_alter h r (bump_obj d) (OVec v) Hv).
Qed.

Lemma move_by_cells fuel r d h cs :
  cells fuel h r = Some cs →
  move_by fuel r d h = Some (tt, foldl (bump d) h cs).
Proof.
  revert r h cs. induction fuel as [|fuel IH]; intros r h cs; [done|].
  assert (Hloop : ∀ l css h0, mapM (cells fuel h0) l = Some css →
    for_each l (λ child, move_by fuel child d) h0
    = Some (tt, foldl (bump d) h0 (concat css))).
  { induction l as [|c l IHl]; intros css h0 Hm.
    - simpl in Hm. injection Hm as <-. done.
    - apply mapM_Some_1 in Hm. inversion Hm as [|? cs0 ? css0 Hc Hl]; subst.
      apply mapM_Some_2 in Hl. simpl for_each.
      rewrite (bind_Some _ _ _ _ _ (IH _ _ _ Hc)).
      rewrite (IHl css0).
      + simpl. by rewrite foldl_app.
      + rewrite <- Hl. apply mapM_ext. intros x.
        apply cells_shape. apply shape_bump_all. }
  simpl. destruct (h !! r) as [[n|b|v]|] eqn:Hr; try done.
  - intros [= <-].
    rewrite (bind_Some _ _ _ _ _ (is_Block_node _ _ _ Hr)).
    rewrite (bind_Some _ _ _ _ _ (read_node_Some _ _ _ Hr)).
    unfold setattr_node.
    rewrite (bind_Some _ _ _ _ _ (read_node_Some _ _ _ Hr)).
    unfold write_node. rewrite Hr. simpl. unfold bump.
    by rewrite <- (insert_as_alter h r (bump_obj d) (ONode n) Hr).
  - destruct (mapM (cells fuel h) (children b)) as [css|] eqn:Hm; [|done].
    simpl. destruct (is_vec h (top_left_ref b)) eqn:Htl; [|done].
    destruct (is_vec h (bottom_right_ref b)) eqn:Hbr; [|done].
    simpl. intros [= <-].
    rewrite (bind_Some _ _ _ _ _ (is_Block_block _ _ _ Hr)).
    unfold Block_move_by.
    rewrite (bind_Some _ _ _ _ _ (read_block_Some _ _ _ Hr)).
    rewrite (bind_Some _ _ _ _ _ (Hloop _ _ _ Hm)).
    set (h1 := foldl (bump d) h (concat css)).
    assert (E1 : shape h = shape h1) by (symmetry; apply shape_bump_all).
    rewrite (bind_Some _ _ _ _ _
               (read_block_Some _ _ _ (shape_block _ _ _ _ E1 Hr))).
    rewrite (shape_is_vec _ _ _ E1) in Htl.
    rewrite (bind_Some _ _ _ _ _ (iadd_bump _ _ d Htl)).
    assert (E2 : shape h = shape (bump d h1 (top_left_ref b))).
    { by rewrite shape_bump. }
    rewrite (bind_Some _ _ _ _ _
               (read_block_Some _ _ _ (shape_block _ _ _ _ E2 Hr))).
    rewrite (shape_is_vec _ _ _ E2) in Hbr.
    rewrite (iadd_bump _ _ d Hbr).
    by rewrite foldl_app.
Qed.
End move_by.

Section reads.
Context {B : Type}.
Implicit Types (h : heap) (e : ref).

Lemma top_left_run h e (k : Vector → M B) :
  (tl <~ top_left e ;; tlv <~ value tl ;; k tlv) h
  = match tl_of h e with Some v => k v h | None => None end.
Proof.
  unfold top_left, tl_of, bind, is_Block, read_block, read_node, ret.
  destruct (h !! e) as [[n|b|v]|] eqn:He; simpl; rewrite ?He; simpl; try done.
  unfold read_vec. by destruct (h !! top_left_ref b) as [[]|].
Qed.

Lemma bottom_right_run h e (k : Vector → M B) :
  (br <~ bottom_right e ;; brv <~ value br ;; k brv) h
  = match br_of h e with Some v => k v h | None => None end.
Proof.
  unfold bottom_right, br_of, bind, is_Block, read_block, read_node, ret.
  destruct (h !! e) as [[n|b|v]|] eqn:He; simpl; rewrite ?He; simpl; try done.
  unfold read_vec. by destruct (h !! bottom_right_ref b) as [[]|].
Qed.
End reads.

Section observations.
Implicit Types (h : heap) (e : ref).

Lemma top_left_val_eq h e : top_left_val h e = tl_of h e.
Proof.
  unfold top_left_val. rewrite top_left_run. by destruct (tl_of h e).
Qed.

Lemma bottom_right_val_eq h e : bottom_right_val h e = br_of h e.
Proof.
  unfold bottom_right_val. rewrite bottom_right_run. by destruct (br_of h e).
Qed.

Lemma width_run h e :
  width e h
  = match tl_of h e, br_of h e with
    | Some tl, Some br => Some (vx br - vx tl, h)
    | _, _ => None
    end.
Proof.
  unfold width, tl_of, br_of, top_left, bottom_right, bind, is_Block,
    read_block, read_node, ret.
  destruct (h !! e) as [[n|b|v]|] eqn:He; simpl; rewrite ?He; simpl; try done.
  unfold read_vec.
  destruct (h !! bottom_right_ref b) as [[]|]; simpl;
    destruct (h !! top_left_ref b) as [[]|]; simpl; done.
Qed.

Lemma height_run h e :
  height e h
  = match tl_of h e, br_of h e with
    | Some tl, Some br => Some (vy tl - vy br, h)
    | _, _ => None
    end.
Proof.
  unfold height, tl_of, br_of, top_left, bottom_right, bind, is_Block,
    read_block, read_node, ret.
  destruct (h !! e) as [[n|b|v]|] eqn:He; simpl; rewrite ?He; simpl; try done.
  unfold read_vec.
  destruct (h !! bottom_right_ref b) as [[]|]; simpl;
    destruct (h !! top_left_ref b) as [[]|]; simpl; done.
Qed.

Lemma well_formed_corners fuel h e :
  well_formed fuel h e → is_Some (tl_of h e) ∧ is_Some (br_of h e).
Proof.
  intros [cs Hcs]. destruct fuel as [|fuel]; [done|]. simpl in Hcs.
  unfold tl_of, br_of.
  destruct (h !! e) as [[n|b|v]|]; try done.
  destruct (mapM (cells fuel h) (children b)); [|done]. simpl in Hcs.
  unfold is_vec in Hcs.
  destruct (h !! top_left_ref b) as [[]|]; try done.
  destruct (h !! bottom_right_ref b) as [[]|]; try done.
Qed.

Lemma move_to_cells fuel h e cs p tl :
  cells fuel h e = Some cs → tl_of h e = Some tl →
  move_to fuel e p h = Some (tt, foldl (bump (vsub p tl)) h cs).
Proof.
  intros Hcs Htl. unfold move_to. rewrite top_left_run, Htl.
  by apply move_by_cells.
Qed.
End observations.

Lemma lookup_snoc {A} (l : list A) x : (l ++ [x]) !! length l = Some x.
Proof. by rewrite lookup_app_r, Nat.sub_diag by lia. Qed.

Lemma lookup_snoc_lt {A} (l : list A) x i :
  (i < length l)%nat → (l ++ [x]) !! i = l !! i.
Proof. intros. by apply lookup_app_l. Qed.

Section extension.
Implicit Types (h k : heap) (r : ref).

Lemma is_vec_app h k r : is_vec h r = true → is_vec (h ++ k) r = true.
Proof.
  intros [v Hv]%is_vec_true. unfold is_vec.
  by rewrite (lookup_app_l_Some _ _ _ _ Hv).
Qed.

Lemma cells_app fuel h k r cs :
  cells fuel h r = Some cs → cells fuel (h ++ k) r = Some cs.
Proof.
  revert r cs. induction fuel as [|fuel IH]; intros r cs; [done|].
  simpl. destruct (h !! r) as [o|] eqn:Hr; [|done].
  rewrite (lookup_app_l_Some _ _ _ _ Hr). destruct o as [n|b|v]; try done.
  destruct (mapM (cells fuel h) (children b)) as [css|] eqn:Hm; [|done].
  simpl.
  destruct (is_vec h (top_left_ref b)) eqn:Htl; [|done].
  destruct (is_vec h (bottom_right_ref b)) eqn:Hbr; [|done].
  simpl. intros [= <-].
  assert (Hm' : mapM (cells fuel (h ++ k)) (children b) = Some css).
  { apply mapM_Some. apply mapM_Some in Hm.
    eapply Forall2_impl; [exact Hm|]. intros x y. apply IH. }
  rewrite Hm'. simpl. by rewrite !is_vec_app.
Qed.

Lemma contains_app h k r l : contains h r l → contains (h ++ k) r l.
Proof.
  induction 1 as [|r b c l Hr Hc _ IH]; [constructor|].
  eapply contains_child; [|exact Hc|exact IH].
  by apply lookup_app_l_Some.
Qed.

Lemma contains_shape h h' r l :
  shape h = shape h' → contains h r l → contains h' r l.
Proof.
  intros E. induction 1 as [|r b c l Hr Hc _ IH]; [constructor|].
  eapply contains_child; [|exact Hc|exact IH].
  by eapply shape_block.
Qed.

Lemma tl_of_app h k r v : tl_of h r = Some v → tl_of (h ++ k) r = Some v.
Proof.
  unfold tl_of. destruct (h !! r) as [o|] eqn:Hr; [|done].
  rewrite (lookup_app_l_Some _ _ _ _ Hr). destruct o as [n|b|v']; try done.
  destruct (h !! top_left_ref b) as [o|] eqn:Ht; [|done].
  by rewrite (lookup_app_l_Some _ _ _ _ Ht).
Qed.

Lemma br_of_app h k r v : br_of h r = Some v → br_of (h ++ k) r = Some v.
Proof.
  unfold br_of. destruct (h !! r) as [o|] eqn:Hr; [|done].
  rewrite (lookup_app_l_Some _ _ _ _ Hr). destruct o as [n|b|v']; try done.
  destruct (h !! bottom_right_ref b) as [o|] eqn:Ht; [|done].
  by rewrite (lookup_app_l_Some _ _ _ _ Ht).
Qed.

Lemma shape_insert h r o o' :
  h !! r = Some o → kind_of o' = kind_of o → shape (<[r := o']> h) = shape h.
Proof.
  intros Hr Hk. unfold shape. rewrite list_fmap_insert, Hk.
  apply list_insert_id. by rewrite list_lookup_fmap, Hr.
Qed.

Lemma insert_snoc h (o o' : obj) : <[length h := o']> (h ++ [o]) = h ++ [o'].
Proof.
  replace (length h) with (length h + 0)%nat at 1 by lia.
  by rewrite insert_app_r.
Qed.

Lemma setattr_node_Some h r n f :
  h !! r = Some (ONode n) →
  setattr_node r f h = Some (tt, <[r := ONode (f n)]> h).
Proof.
  intros Hr. unfold setattr_node.
  rewrite (bind_Some _ _ _ _ _ (read_node_Some _ _ _ Hr)).
  unfold write_node. by rewrite Hr.
Qed.

Lemma setattr_node_last h n f :
  setattr_node (length h) f (h ++ [ONode n]) = Some (tt, h ++ [ONode (f n)]).
Proof.
  rewrite (setattr_node_Some _ _ n) by apply lookup_snoc.
  by rewrite insert_snoc.
Qed.

Lemma setattr_block_Some h r b f :
  h !! r = Some (OBlock b) →
  setattr_block r f h = Some (tt, <[r := OBlock (f b)]> h).
Proof.
  intros Hr. unfold setattr_block.
  rewrite (bind_Some _ _ _ _ _ (read_block_Some _ _ _ Hr)).
  unfold write_block. by rewrite Hr.
Qed.

Lemma cells_block_inv fuel h r b cs :
  cells fuel h r = Some cs → h !! r = Some (OBlock b) →
  is_vec h (top_left_ref b) = true ∧ is_vec h (bottom_right_ref b) = true.
Proof.
  destruct fuel as [|fuel]; [done|]. simpl. intros Hcs Hr.
  rewrite Hr in Hcs.
  destruct (mapM (cells fuel h) (children b)); [|done]. simpl in Hcs.
  destruct (is_vec h (top_left_ref b)); [|done].
  by destruct (is_vec h (bottom_right_ref b)).
Qed.
End extension.

Section add_to_frame.
Variable frame : ref.
Implicit Types (h : heap) (r l : ref).

Lemma framed_trans h1 h2 h3 :
  framed frame h1 h2 → framed frame h2 h3 → framed frame h1 h3.
Proof.
  intros (E1 & P1 & V1) (E2 & P2 & V2).
  split; [congruence|]. split; auto.
Qed.

Lemma add_to_frame_node h r n :
  h !! r = Some (ONode n) →
  ∀ fuel, add_to_frame (S fuel) frame r h
  = Some (tt, <[r := ONode (set_parent (Some frame) n)]> h).
Proof.
  intros Hr fuel. simpl.
  rewrite (bind_Some _ _ _ _ _ (is_Block_node _ _ _ Hr)).
  rewrite (bind_Some _ _ _ _ _ (setattr_node_Some _ _ _ _ Hr)).
  pose proof (lookup_lt_Some _ _ _ Hr) as Hlt.
  set (n1 := set_parent (Some frame) n).
  assert (H1 : <[r := ONode n1]> h !! r = Some (ONode n1))
    by (by apply list_lookup_insert_eq).
  rewrite (bind_Some _ _ _ _ _ (read_node_Some _ _ _ H1)).
  rewrite (setattr_node_Some _ _ _ _ H1), list_insert_insert_eq.
  by destruct n.
Qed.

Lemma add_to_frame_spec fuel r h cs :
  cells fuel h r = Some cs →
  ∃ h', add_to_frame fuel frame r h = Some (tt, h') ∧
    framed frame h h' ∧
    ∀ l n, contains h r l → h !! l = Some (ONode n) →
           parent_of h' l = Some (Some frame).
Proof.
  revert r h cs. induction fuel as [|fuel IH]; intros r h cs; [done|].
  assert (Hloop : ∀ cl css h0, mapM (cells fuel h0) cl = Some css →
    ∃ h', for_each cl (λ child, add_to_frame fuel frame child) h0
          = Some (tt, h') ∧
      framed frame h0 h' ∧
      ∀ c l n, c ∈ cl → contains h0 c l → h0 !! l = Some (ONode n) →
               parent_of h' l = Some (Some frame)).
  { induction cl as [|c cl IHl]; intros css h0 Hm.
    - exists h0. repeat split; [done..|]. intros c l n Hc. by inversion Hc.
    - apply mapM_Some_1 in Hm. inversion Hm as [|? cs0 ? css0 Hc Hl]; subst.
      apply mapM_Some_2 in Hl.
      destruct (IH _ _ _ Hc) as (h1 & Hrun1 & Hf1 & Hp1).
      destruct (IHl css0 h1) as (h2 & Hrun2 & Hf2 & Hp2).
      { rewrite <- Hl. apply mapM_ext. intros x.
        apply cells_shape. apply Hf1. }
      exists h2. split; [|split].
      + simpl. by rewrite (bind_Some _ _ _ _ _ Hrun1).
      + by eapply framed_trans.
      + intros c' l n Hc' Hcont Hn. apply elem_of_cons in Hc' as [->|Hc'].
        * apply Hf2. by eapply Hp1.
        * destruct (shape_node h0 h1 l n) as [n' Hn']; [symmetry; apply Hf1|done|].
          eapply Hp2; [done| |done].
          eapply contains_shape; [|done]. symmetry. apply Hf1. }
  simpl. destruct (h !! r) as [[n|b|v]|] eqn:Hr; try done.
  - intros _. exists (<[r := ONode (set_parent (Some frame) n)]> h).
    pose proof (add_to_frame_node h r n Hr fuel) as Hrun. simpl in Hrun.
    split; [done|].
    pose proof (lookup_lt_Some _ _ _ Hr) as Hlt.
    split; [split; [|split]|].
    + by eapply shape_insert.
    + intros l. unfold parent_of. destruct (decide (l = r)) as [->|Hne].
      * rewrite list_lookup_insert_eq by done. done.
      * by rewrite list_lookup_insert_ne.
    + intros r' v Hv. rewrite list_lookup_insert_ne; [done|]. congruence.
    + intros l n' Hcont Hl. inversion Hcont; subst; [|congruence].
      unfold parent_of. by rewrite list_lookup_insert_eq.
  - destruct (mapM (cells fuel h) (children b)) as [css|] eqn:Hm; [|done].
    intros _. destruct (Hloop _ _ _ Hm) as (h' & Hrun & Hf & Hp).
    exists h'. split; [|split; [done|]].
    + rewrite (bind_Some _ _ _ _ _ (is_Block_block _ _ _ Hr)).
      by rewrite (bind_Some _ _ _ _ _ (read_block_Some _ _ _ Hr)).
    + intros l n Hcont Hl. inversion Hcont as [|? b' c ? Hr' Hc Hcl]; subst.
      * congruence.
      * assert (b' = b) as -> by congruence. by eapply Hp.
Qed.
End add_to_frame.

Lemma parent_of_bump d (h : heap) c l :
  parent_of (bump d h c) l = parent_of h l.
Proof.
  unfold parent_of. destruct (decide (c = l)) as [->|Hne].
  - rewrite bump_lookup. by destruct (h !! l) as [[]|].
  - by rewrite bump_lookup_ne.
Qed.

Lemma tl_of_shape_Some (h h' : heap) e :
  shape h = shape h' → is_Some (tl_of h e) → is_Some (tl_of h' e).
Proof.
  intros E. unfold tl_of.
  pose proof (shape_lookup h h' e E) as K.
  destruct (h !! e) as [[n|b|v]|], (h' !! e) as [[n'|b'|v']|];
    simpl in K; try congruence; try done. 
  assert (b' = b) as -> by congruence.
  pose proof (shape_lookup h h' (top_left_ref b) E) as K2.
  destruct (h !! top_left_ref b) as [[]|], (h' !! top_left_ref b) as [[]|];
    simpl in K2; try congruence; try done; by intros [? ?].
Qed.

Lemma br_of_shape_Some (h h' : heap) e :
  shape h = shape h' → is_Some (br_of h e) → is_Some (br_of h' e).
Proof.
  intros E. unfold br_of.
  pose proof (shape_lookup h h' e E) as K.
  destruct (h !! e) as [[n|b|v]|], (h' !! e) as [[n'|b'|v']|];
    simpl in K; try congruence; try done.
  assert (b' = b) as -> by congruence.
  pose proof (shape_lookup h h' (bottom_right_ref b) E) as K2.
  destruct (h !! bottom_right_ref b) as [[]|],
    (h' !! bottom_right_ref b) as [[]|];
    simpl in K2; try congruence; try done; by intros [? ?].
Qed.

Lemma shape_length (h h' : heap) : shape h = shape h' → length h = length h'.
Proof.
  unfold shape. intros E.
  by rewrite <- (length_fmap kind_of h), E, length_fmap.
Qed.

Section separate.
Implicit Types (h : heap) (e r c : ref) (d p : Vector).



Lemma cells_node fuel h e n cs :
  cells fuel h e = Some cs → h !! e = Some (ONode n) → cs = [e].
Proof.
  destruct fuel as [|fuel]; [done|]. simpl. intros Hcs He.
  rewrite He in Hcs. congruence.
Qed.




Lemma width_val_eq h e :
  width_val h e = tl ← tl_of h e; br ← br_of h e; Some (vx br - vx tl).
Proof.
  unfold width_val. rewrite width_run.
  by destruct (tl_of h e), (br_of h e).
Qed.

Lemma height_val_eq h e :
  height_val h e = tl ← tl_of h e; br ← br_of h e; Some (vy tl - vy br).
Proof.
  unfold height_val. rewrite height_run.
  by destruct (tl_of h e), (br_of h e).
Qed.

Lemma width_val_Some h e tl br :
  tl_of h e = Some tl → br_of h e = Some br →
  width_val h e = Some (vx br - vx tl).
Proof. intros Ht Hb. by rewrite width_val_eq, Ht, Hb. Qed.

Lemma height_val_Some h e tl br :
  tl_of h e = Some tl → br_of h e = Some br →
  height_val h e = Some (vy tl - vy br).
Proof. intros Ht Hb. by rewrite height_val_eq, Ht, Hb. Qed.




End separate.

Section grows.
Implicit Types (h : heap) (self r : ref).

Lemma grows_refl self h : grows self h h.
Proof. by split. Qed.

Lemma grows_trans self h1 h2 h3 :
  grows self h1 h2 → grows self h2 h3 → grows self h1 h3.
Proof.
  intros [L1 A1] [L2 A2]. split; [lia|]. intros r Hne Hr.
  rewrite A2, A1; [done..|lia].
Qed.

Lemma grows_insert self h o : grows self h (<[self := o]> h).
Proof.
  split; [by rewrite length_insert|]. intros r Hne _.
  by rewrite list_lookup_insert_ne.
Qed.

Lemma grows_app self h k : grows self h (h ++ k).
Proof.
  split; [rewrite length_app; lia|]. intros r _ Hr. by apply lookup_app_l.
Qed.

Lemma grows_lookup self h h' r o :
  grows self h h' → r ≠ self → h !! r = Some o → h' !! r = Some o.
Proof.
  intros [_ A] Hne Hr. rewrite A; [done..|]. by eapply lookup_lt_Some.
Qed.
End grows.

Section corners.
Implicit Types (h : heap) (self e r : ref).

(** Rebinding or extending [self] does not change what the corners of an
    element are, as long as the corner read is left as it is. *)
Lemma tl_of_insert_block h self b b' e :
  h !! self = Some (OBlock b) → top_left_ref b' = top_left_ref b →
  tl_of (<[self := OBlock b']> h) e = tl_of h e.
Proof.
  intros Hs Ht. pose proof (lookup_lt_Some _ _ _ Hs) as Hlt.
  assert (Hv : ∀ r, match <[self := OBlock b']> h !! r with
                    | Some (OVec v) => Some v | _ => None end
                  = match h !! r with Some (OVec v) => Some v | _ => None end).
  { intros r. destruct (decide (r = self)) as [->|Hne].
    - by rewrite list_lookup_insert_eq, Hs.
    - by rewrite list_lookup_insert_ne. }
  unfold tl_of. destruct (decide (e = self)) as [->|Hne].
  - rewrite list_lookup_insert_eq by done. rewrite Hs, Ht. apply Hv.
  - rewrite list_lookup_insert_ne by done.
    destruct (h !! e) as [[]|]; auto.
Qed.

Lemma br_of_insert_block h self b b' e :
  h !! self = Some (OBlock b) → bottom_right_ref b' = bottom_right_ref b →
  br_of (<[self := OBlock b']> h) e = br_of h e.
Proof.
  intros Hs Ht. pose proof (lookup_lt_Some _ _ _ Hs) as Hlt.
  assert (Hv : ∀ r, match <[self := OBlock b']> h !! r with
                    | Some (OVec v) => Some v | _ => None end
                  = match h !! r with Some (OVec v) => Some v | _ => None end).
  { intros r. destruct (decide (r = self)) as [->|Hne].
    - by rewrite list_lookup_insert_eq, Hs.
    - by rewrite list_lookup_insert_ne. }
  unfold br_of. destruct (decide (e = self)) as [->|Hne].
  - rewrite list_lookup_insert_eq by done. rewrite Hs, Ht. apply Hv.
  - rewrite list_lookup_insert_ne by done.
    destruct (h !! e) as [[]|]; auto.
Qed.

Lemma top_left_pyvec h e tl :
  tl_of h e = Some tl →
  ∃ pv, top_left e h = Some (pv, h) ∧ value pv h = Some (tl, h) ∧
    match pv with
    | Obj r => h !! r = Some (OVec tl)
    | Tmp v => v = tl
    end.
Proof.
  unfold tl_of, top_left, bind, is_Block, read_block, read_node, ret.
  destruct (h !! e) as [[n|b|v]|] eqn:He; simpl; rewrite ?He; try done.
  - intros [= <-]. exists (Tmp (node_location n)). done.
  - destruct (h !! top_left_ref b) as [[| |v]|] eqn:Ht; try done.
    intros [= <-]. exists (Obj (top_left_ref b)). simpl.
    unfold read_vec. by rewrite Ht.
Qed.

Lemma bottom_right_pyvec h e br :
  br_of h e = Some br → bottom_right e h = Some (Tmp br, h).
Proof.
  unfold br_of, bottom_right, bind, is_Block, read_block, read_node, ret.
  destruct (h !! e) as [[n|b|v]|] eqn:He; simpl; rewrite ?He; try done.
  - by intros [= <-].
  - unfold read_vec.
    destruct (h !! bottom_right_ref b) as [[| |v]|] eqn:Ht; try done.
    by intros [= <-].
Qed.
End corners.

Section Block_add.
Implicit Types (h : heap) (self child r : ref).

(** Which Vector [top_left] hands out. *)
Lemma top_left_ref_pyvec h e pv h1 :
  top_left e h = Some (pv, h1) →
  match h !! e with
  | Some (OBlock bc) => pv = Obj (top_left_ref bc)
  | _ => ∃ v, pv = Tmp v
  end.
Proof.
  unfold top_left, bind, is_Block, read_block, read_node, ret.
  destruct (h !! e) as [[n|b|v]|] eqn:He; simpl; rewrite ?He; try done.
  - intros [= <- _]. by eexists.
  - by intros [= <- _].
Qed.

(** Adding the first child: [top_left] is bound to the Vector that
    [top_left(child)] hands out, [bottom_right] to a new one. *)
Lemma Block_add_first_run h self b child tl br :
  h !! self = Some (OBlock b) → children b = [] →
  tl_of h child = Some tl → br_of h child = Some br →
  ∃ h' tlr brr,
    Block_add self child h = Some (tt, h') ∧
    grows self h h' ∧
    h' !! self = Some (OBlock (mkBlock [child] tlr brr)) ∧
    h' !! tlr = Some (OVec tl) ∧
    h' !! brr = Some (OVec br) ∧
    match h !! child with
    | Some (OBlock bc) => tlr = top_left_ref bc
    | _ => h !! tlr = None
    end ∧
    h !! brr = None.
Proof.
  intros Hs Hch Htl Hbr.
  pose proof (lookup_lt_Some _ _ _ Hs) as Hlt.
  set (b1 := set_children (children b ++ [child]) b).
  set (h1 := <[self := OBlock b1]> h).
  assert (Hs1 : h1 !! self = Some (OBlock b1))
    by (by apply list_lookup_insert_eq).
  assert (Htl1 : tl_of h1 child = Some tl).
  { unfold h1. by rewrite (tl_of_insert_block h self b). }
  destruct (top_left_pyvec _ _ _ Htl1) as (pv & Hpv & _ & Hpvv).
  pose proof (top_left_ref_pyvec _ _ _ _ Hpv) as Hwhich.
  (* binding [self.top_left] *)
  assert (∃ tlr h2, store pv h1 = Some (tlr, h2) ∧ grows self h1 h2 ∧
            h2 !! tlr = Some (OVec tl) ∧ h2 !! self = Some (OBlock b1) ∧
            match pv with Obj r => tlr = r | Tmp _ => tlr = length h end)
    as (tlr & h2 & Hst & G2 & Htlr2 & Hs2 & Hwhere).
  { destruct pv as [r|v]; simpl.
    - exists r, h1. repeat split; try done.
    - subst v. exists (length h1), (h1 ++ [OVec tl]).
      split; [done|]. split; [apply grows_app|].
      split; [apply lookup_snoc|]. split; [by apply lookup_app_l_Some|].
      unfold h1. by rewrite length_insert. }
  assert (Hne2 : tlr ≠ self) by (intros ->; congruence).
  set (b3 := set_top_left tlr b1).
  set (h3 := <[self := OBlock b3]> h2).
  pose proof (lookup_lt_Some _ _ _ Hs2) as Hlt2.
  assert (Hs3 : h3 !! self = Some (OBlock b3))
    by (by apply list_lookup_insert_eq).
  assert (Hbr3 : br_of h3 child = Some br).
  { unfold h3. rewrite (br_of_insert_block h2 self b1) by done.
    assert (Hbr1 : br_of h1 child = Some br).
    { unfold h1. by rewrite (br_of_insert_block h self b). }
    destruct pv as [r|v]; simpl in Hst.
    - by injection Hst as <- <-.
    - injection Hst as <- <-. by apply br_of_app. }
  set (brr := length h3).
  set (h4 := h3 ++ [OVec br]).
  assert (Hs4 : h4 !! self = Some (OBlock b3)) by (by apply lookup_app_l_Some).
  set (b5 := set_bottom_right brr b3).
  set (h5 := <[self := OBlock b5]> h4).
  pose proof (lookup_lt_Some _ _ _ Hs4) as Hlt4.
  assert (Hnb : brr ≠ self).
  { unfold brr, h3. rewrite length_insert. lia. }
  exists h5, tlr, brr. split; [|split; [|split; [|split; [|split; [|split]]]]].
  - unfold Block_add.
    erewrite bind_Some by (by apply read_block_Some).
    erewrite bind_Some by (by apply setattr_block_Some).
    fold b1 h1.
    erewrite bind_Some by (by apply read_block_Some).
    assert (Hlen : length (children b1) = 1%nat).
    { simpl. by rewrite Hch. }
    destruct (decide (length (children b1) = 1%nat)); [|done].
    erewrite bind_Some by exact Hpv.
    erewrite bind_Some by exact Hst.
    erewrite bind_Some by (by apply setattr_block_Some).
    fold b3 h3.
    erewrite bind_Some by (by apply bottom_right_pyvec).
    erewrite bind_Some by reflexivity.
    fold h4 brr. by apply setattr_block_Some.
  - eapply grows_trans; [apply grows_insert|]. fold h1.
    eapply grows_trans; [exact G2|].
    eapply grows_trans; [apply grows_insert|]. fold h3.
    eapply grows_trans; [apply grows_app|]. apply grows_insert.
  - unfold h5. rewrite list_lookup_insert_eq by done.
    unfold b5, b3, b1. simpl. by rewrite Hch.
  - unfold h5. rewrite list_lookup_insert_ne by done.
    apply lookup_app_l_Some. unfold h3. by rewrite list_lookup_insert_ne.
  - unfold h5. rewrite list_lookup_insert_ne by done. apply lookup_snoc.
  - unfold h1 in Hwhich.
    destruct (decide (child = self)) as [->|Hcs].
    + rewrite list_lookup_insert_eq in Hwhich by done. rewrite Hs.
      subst pv. by subst tlr.
    + rewrite list_lookup_insert_ne in Hwhich by done.
      destruct (h !! child) as [[n|bc|v]|] eqn:Hc.
      * destruct Hwhich as [v ->]. subst tlr. apply lookup_ge_None. lia.
      * subst pv. by subst tlr.
      * destruct Hwhich as [v' ->]. subst tlr. apply lookup_ge_None. lia.
      * destruct Hwhich as [v' ->]. subst tlr. apply lookup_ge_None. lia.
  - apply lookup_ge_None. unfold brr, h3. rewrite length_insert.
    destruct G2 as [G2 _]. unfold h1 in G2. rewrite length_insert in G2. lia.
Qed.

Lemma Block_add_first h self b child tl br :
  h !! self = Some (OBlock b) → children b = [] →
  tl_of h child = Some tl → br_of h child = Some br →
  ∃ h' tlr brr,
    Block_add self child h = Some (tt, h') ∧
    grows self h h' ∧
    h' !! self = Some (OBlock (mkBlock [child] tlr brr)) ∧
    h' !! tlr = Some (OVec tl) ∧
    h' !! brr = Some (OVec br).
Proof.
  intros Hs Hch Htl Hbr.
  destruct (Block_add_first_run h self b child tl br)
    as (h' & tlr & brr & ? & ? & ? & ? & ? & _); try done.
  by exists h', tlr, brr.
Qed.

(** Adding to a Block that has children: the two corners are rebound to
    two new Vector objects, allocated at the end of the store. *)
Lemma Block_add_more_run h self b child stl sbr tl br :
  h !! self = Some (OBlock b) → children b ≠ [] →
  h !! top_left_ref b = Some (OVec stl) →
  h !! bottom_right_ref b = Some (OVec sbr) →
  tl_of h child = Some tl → br_of h child = Some br →
  ∃ h',
    Block_add self child h = Some (tt, h') ∧
    grows self h h' ∧
    h' !! self
    = Some (OBlock (mkBlock (children b ++ [child]) (length h)
                            (S (length h)))) ∧
    h' !! length h = Some (OVec (union_tl stl tl)) ∧
    h' !! S (length h) = Some (OVec (union_br sbr br)).
Proof.
  intros Hs Hch Hstl Hsbr Htl Hbr.
  pose proof (lookup_lt_Some _ _ _ Hs) as Hlt.
  assert (Hn1 : top_left_ref b ≠ self) by (intros E; congruence).
  assert (Hn2 : bottom_right_ref b ≠ self) by (intros E; congruence).
  set (b1 := set_children (children b ++ [child]) b).
  set (h1 := <[self := OBlock b1]> h).
  assert (Hs1 : h1 !! self = Some (OBlock b1))
    by (by apply list_lookup_insert_eq).
  assert (Htl1 : tl_of h1 child = Some tl).
  { unfold h1. by rewrite (tl_of_insert_block h self b). }
  assert (Hbr1 : br_of h1 child = Some br).
  { unfold h1. by rewrite (br_of_insert_block h self b). }
  destruct (top_left_pyvec _ _ _ Htl1) as (pv & Hpv & Hval & _).
  set (tlr := length h1).
  set (h2 := h1 ++ [OVec (union_tl stl tl)]).
  assert (Hs2 : h2 !! self = Some (OBlock b1)) by (by apply lookup_app_l_Some).
  pose proof (lookup_lt_Some _ _ _ Hs2) as Hlt2.
  set (b3 := set_top_left tlr b1).
  set (h3 := <[self := OBlock b3]> h2).
  assert (Hs3 : h3 !! self = Some (OBlock b3))
    by (by apply list_lookup_insert_eq).
  assert (Hsbr3 : h3 !! bottom_right_ref b3 = Some (OVec sbr)).
  { simpl. unfold h3. rewrite list_lookup_insert_ne by done.
    apply lookup_app_l_Some. unfold h1. by rewrite list_lookup_insert_ne. }
  set (brr := length h3).
  set (h4 := h3 ++ [OVec (union_br sbr br)]).
  assert (Hs4 : h4 !! self = Some (OBlock b3)) by (by apply lookup_app_l_Some).
  pose proof (lookup_lt_Some _ _ _ Hs4) as Hlt4.
  set (b5 := set_bottom_right brr b3).
  set (h5 := <[self := OBlock b5]> h4).
  assert (Hnt : tlr ≠ self) by (unfold tlr, h1; rewrite length_insert; lia).
  assert (Hnb : brr ≠ self).
  { unfold brr, h3. rewrite length_insert. unfold h2.
    rewrite length_app. unfold h1. rewrite length_insert. lia. }
  assert (Etl : tlr = length h) by (unfold tlr, h1; by rewrite length_insert).
  assert (Ebr : brr = S (length h)).
  { unfold brr, h3. rewrite length_insert. unfold h2.
    rewrite length_app. unfold h1. rewrite length_insert. simpl. lia. }
  rewrite <- Ebr, <- Etl.
  exists h5. split; [|split; [|split; [|split]]].
  - unfold Block_add.
    erewrite bind_Some by (by apply read_block_Some).
    erewrite bind_Some by (by apply setattr_block_Some).
    fold b1 h1.
    erewrite bind_Some by (by apply read_block_Some).
    destruct (decide (length (children b1) = 1%nat)) as [Hl|_].
    { simpl in Hl. rewrite length_app in Hl. simpl in Hl.
      destruct (children b); [done|simpl in Hl; lia]. }
    erewrite bind_Some by exact Hpv.
    erewrite bind_Some by (by apply bottom_right_pyvec).
    erewrite bind_Some by (by apply read_block_Some).
    erewrite bind_Some.
    2:{ apply read_vec_Some. simpl. unfold h1.
        by rewrite list_lookup_insert_ne. }
    erewrite bind_Some by exact Hval.
    erewrite bind_Some by reflexivity.
    fold (union_tl stl tl). fold h2 tlr.
    erewrite bind_Some by (by apply setattr_block_Some).
    fold b3 h3.
    erewrite bind_Some by (by apply read_block_Some).
    erewrite bind_Some by (by apply read_vec_Some).
    erewrite bind_Some by reflexivity.
    erewrite bind_Some by reflexivity.
    fold (union_br sbr br). fold h4 brr.
    by apply setattr_block_Some.
  - eapply grows_trans; [apply grows_insert|]. fold h1.
    eapply grows_trans; [apply grows_app|]. fold h2.
    eapply grows_trans; [apply grows_insert|]. fold h3.
    eapply grows_trans; [apply grows_app|]. apply grows_insert.
  - unfold h5. by rewrite list_lookup_insert_eq.
  - unfold h5. rewrite list_lookup_insert_ne by done.
    apply lookup_app_l_Some. unfold h3. rewrite list_lookup_insert_ne by done.
    apply lookup_snoc.
  - unfold h5. rewrite list_lookup_insert_ne by done. apply lookup_snoc.
Qed.

Lemma Block_add_more h self b child stl sbr tl br :
  h !! self = Some (OBlock b) → children b ≠ [] →
  h !! top_left_ref b = Some (OVec stl) →
  h !! bottom_right_ref b = Some (OVec sbr) →
  tl_of h child = Some tl → br_of h child = Some br →
  ∃ h' tlr brr,
    Block_add self child h = Some (tt, h') ∧
    grows self h h' ∧
    h' !! self = Some (OBlock (mkBlock (children b ++ [child]) tlr brr)) ∧
    h' !! tlr = Some (OVec (union_tl stl tl)) ∧
    h' !! brr = Some (OVec (union_br sbr br)).
Proof.
  intros Hs Hch Hstl Hsbr Htl Hbr.
  destruct (Block_add_more_run h self b child stl sbr tl br)
    as (h' & ?); try done.
  by exists h', (length h), (S (length h)).
Qed.
End Block_add.

Section agree.
Implicit Types (h : heap) (e r : ref).

Lemma agree_lookup h (h' : heap) r o :
  (∀ r, (r < length h)%nat → h' !! r = h !! r) →
  h !! r = Some o → h' !! r = Some o.
Proof. intros A Hr. rewrite A; [done|]. by eapply lookup_lt_Some. Qed.

Lemma tl_of_agree h (h' : heap) e v :
  (∀ r, (r < length h)%nat → h' !! r = h !! r) →
  tl_of h e = Some v → tl_of h' e = Some v.
Proof.
  intros A. unfold tl_of. destruct (h !! e) as [o|] eqn:He; [|done].
  rewrite (agree_lookup _ _ _ _ A He). destruct o as [n|b|?]; try done.
  destruct (h !! top_left_ref b) as [o|] eqn:Ht; [|done].
  by rewrite (agree_lookup _ _ _ _ A Ht).
Qed.

Lemma br_of_agree h (h' : heap) e v :
  (∀ r, (r < length h)%nat → h' !! r = h !! r) →
  br_of h e = Some v → br_of h' e = Some v.
Proof.
  intros A. unfold br_of. destruct (h !! e) as [o|] eqn:He; [|done].
  rewrite (agree_lookup _ _ _ _ A He). destruct o as [n|b|?]; try done.
  destruct (h !! bottom_right_ref b) as [o|] eqn:Ht; [|done].
  by rewrite (agree_lookup _ _ _ _ A Ht).
Qed.

Lemma corners_of_Some h e c :
  corners_of h e = Some c ↔ tl_of h e = Some c.1 ∧ br_of h e = Some c.2.
Proof.
  unfold corners_of. destruct c as [tl br].
  destruct (tl_of h e), (br_of h e); simpl;
    (split; [intros [=]|intros [[=] [=]]]; by subst).
Qed.
End agree.

Section Block_init.
Implicit Types (h : heap) (self e r : ref).

Lemma for_each_add h0 self blocks :
  (length h0 ≤ self)%nat →
  ∀ cs h pre tlr brr stl sbr,
    (∀ r, (r < length h0)%nat → h !! r = h0 !! r) →
    (length h0 ≤ length h)%nat →
    h !! self = Some (OBlock (mkBlock pre tlr brr)) →
    h !! tlr = Some (OVec stl) → h !! brr = Some (OVec sbr) →
    mapM (corners_of h0) blocks = Some cs →
    ∃ h' tlr' brr',
      for_each blocks (λ block, Block_add self block) h = Some (tt, h') ∧
      (∀ r, (r < length h0)%nat → h' !! r = h0 !! r) ∧
      (length h0 ≤ length h')%nat ∧
      h' !! self = Some (OBlock (mkBlock (pre ++ blocks) tlr' brr')) ∧
      h' !! tlr' = Some (OVec (box_after (bool_decide (pre = [])) (stl, sbr) cs).1) ∧
      h' !! brr' = Some (OVec (box_after (bool_decide (pre = [])) (stl, sbr) cs).2).
Proof.
  intros Hself. induction blocks as [|e blocks IH];
    intros cs h pre tlr brr stl sbr A Hlen Hs Htl Hbr Hm.
  - injection Hm as <-. exists h, tlr, brr. simpl. rewrite app_nil_r. done.
  - apply mapM_Some_1 in Hm. inversion Hm as [|? c ? cs' Hc Hcs]; subst.
    apply mapM_Some_2 in Hcs. apply corners_of_Some in Hc as [Hct Hcb].
    pose proof (tl_of_agree _ _ _ _ A Hct) as Hct'.
    pose proof (br_of_agree _ _ _ _ A Hcb) as Hcb'.
    assert (∃ h1 tlr1 brr1,
      Block_add self e h = Some (tt, h1) ∧ grows self h h1 ∧
      h1 !! self = Some (OBlock (mkBlock (pre ++ [e]) tlr1 brr1)) ∧
      h1 !! tlr1 = Some (OVec (if bool_decide (pre = []) then c
                               else (union_tl stl c.1, union_br sbr c.2)).1) ∧
      h1 !! brr1 = Some (OVec (if bool_decide (pre = []) then c
                               else (union_tl stl c.1, union_br sbr c.2)).2))
      as (h1 & tlr1 & brr1 & Hrun & G & Hs1 & Htl1 & Hbr1).
    { case_bool_decide as Hpre.
      - subst pre.
        destruct (Block_add_first h self _ e _ _ Hs eq_refl Hct' Hcb')
          as (h1 & t1 & b1 & ?). exists h1, t1, b1. done.
      - destruct (Block_add_more h self _ e stl sbr _ _ Hs Hpre Htl Hbr
                    Hct' Hcb') as (h1 & t1 & b1 & ?).
        exists h1, t1, b1. done. }
    destruct G as [GL GA].
    edestruct (IH cs' h1 (pre ++ [e]) tlr1 brr1)
      as (h' & t' & b' & Hrun' & A' & L' & Hs' & Ht' & Hb');
      [|lia|exact Hs1|exact Htl1|exact Hbr1|exact Hcs|].
    { intros r Hr. rewrite GA; [by apply A|lia|lia]. }
    exists h', t', b'. split; [|split; [done|split; [done|]]].
    + simpl. by erewrite bind_Some by exact Hrun.
    + rewrite <- app_assoc in Hs'. simpl in Hs'. split; [done|].
      assert (bool_decide (pre ++ [e] = []) = false) as E.
      { apply bool_decide_eq_false_2. by destruct pre. }
      rewrite E in Ht', Hb'. simpl.
      by destruct (bool_decide (pre = [])), c.
Qed.

Lemma Block_init_spec h blocks cs :
  mapM (corners_of h) blocks = Some cs →
  ∃ g h' tlr brr,
    Block_init blocks h = Some (g, h') ∧
    h !! g = None ∧
    (∀ r, (r < length h)%nat → h' !! r = h !! r) ∧
    h' !! g = Some (OBlock (mkBlock blocks tlr brr)) ∧
    h' !! tlr
    = Some (OVec (box_after true (mkV (qc 0) (qc 0), mkV (qc 0) (qc 0)) cs).1) ∧
    h' !! brr
    = Some (OVec (box_after true (mkV (qc 0) (qc 0), mkV (qc 0) (qc 0)) cs).2).
Proof.
  intros Hm. set (z := OVec (mkV (qc 0) (qc 0))).
  set (self := length ((h ++ [z]) ++ [z])).
  set (b0 := mkBlock [] (length h) (length (h ++ [z]))).
  set (h1 := ((h ++ [z]) ++ [z]) ++ [OBlock b0]).
  destruct (for_each_add h self blocks) with (cs := cs) (h := h1) (pre := @nil nat)
    (tlr := length h) (brr := length (h ++ [z]))
    (stl := mkV (qc 0) (qc 0)) (sbr := mkV (qc 0) (qc 0))
    as (h' & tlr & brr & Hrun & A & L & Hs & Ht & Hb); try done.
  - unfold self. rewrite !length_app. simpl. lia.
  - intros r Hr. unfold h1. by rewrite !lookup_app_l by (rewrite ?length_app; simpl; lia).
  - unfold h1. rewrite !length_app. lia.
  - apply lookup_snoc.
  - unfold h1. rewrite !lookup_snoc_lt by (rewrite ?length_app; simpl; lia).
    apply lookup_snoc.
  - unfold h1. rewrite lookup_snoc_lt by (rewrite ?length_app; simpl; lia).
    apply lookup_snoc.
  - exists self, h', tlr, brr. split; [|split; [|done]].
    + unfold Block_init.
      do 3 (erewrite bind_Some by reflexivity).
      fold z b0 h1 self. by erewrite bind_Some by exact Hrun.
    + apply lookup_ge_None. unfold self. rewrite !length_app. simpl. lia.
Qed.
End Block_init.

Section frame.
Implicit Types (h : heap) (e r : ref).




Lemma cells_in_concat fuel h blocks css e :
  Forall2 (λ x cs, cells fuel h x = Some cs) blocks css → e ∈ blocks →
  ∃ cs, cells fuel h e = Some cs ∧ ∀ r, r ∈ cs → r ∈ concat css.
Proof.
  induction 1 as [|x cs blocks css Hx _ IH]; intros He; [by inversion He|].
  apply elem_of_cons in He as [->|He].
  - exists cs. split; [done|]. intros r Hr. simpl. apply elem_of_app. auto.
  - destruct (IH He) as (cs' & Hc & Hin). exists cs'. split; [done|].
    intros r Hr. simpl. apply elem_of_app. auto.
Qed.
End frame.

Section place_loop.
Context {S : Type} (fuel : nat) (target : Qc → Qc → S → Vector)
  (next : Qc → Qc → S → S).
Implicit Types (h : heap) (e r : ref).

End place_loop.

Section alignment.
Implicit Types (h : heap) (e r : ref) (blocks : list ref).







Lemma mapM_corners fuel h blocks css :
  mapM (cells fuel h) blocks = Some css →
  ∃ cs, mapM (corners_of h) blocks = Some cs.
Proof.
  intros Hm. apply mapM_is_Some.
  assert (is_Some (mapM (cells fuel h) blocks)) as Hs by eauto.
  apply mapM_is_Some in Hs. eapply Forall_impl; [exact Hs|].
  intros e He. simpl in *.
  destruct (well_formed_corners fuel h e He) as [[tl Ht] [br Hb]].
  unfold corners_of. rewrite Ht, Hb. by eexists.
Qed.



End alignment.

Section framify.
Implicit Types (h : heap) (self l : ref).

(** The run of [framify]: the move, the new frame [fn] at the end of the
    store, [add_to_frame], and the two updates of [self]. *)
Lemma framify_run fuel self tree label h b cs tl :
  h !! self = Some (OBlock b) →
  cells fuel h self = Some cs →
  tl_of h self = Some tl →
  ∃ fn h5,
    framed (length h)
      (foldl (bump (vsub (mkV padding padding) tl)) h cs ++ [ONode fn]) h5 ∧
    (∀ l n, contains h self l → h !! l = Some (ONode n) →
            parent_of h5 l = Some (Some (length h))) ∧
    Block_framify fuel self tree label h
    = Some (tt, bump (mkV (qc 2 * padding) (qc 2 * padding))
                     (<[self := OBlock (set_children [length h] b)]> h5)
                     (bottom_right_ref b)).
Proof.
  intros Hself Hcs Htl.
  destruct (cells_block_inv _ _ _ _ _ Hcs Hself) as [_ Hbrv].
  set (frame := length h).
  set (h1 := foldl (bump (vsub (mkV padding padding) tl)) h cs).
  assert (E1 : shape h1 = shape h) by apply shape_bump_all.
  assert (Hlen1 : length h1 = length h) by (by apply shape_length).
  destruct (well_formed_corners fuel h1 self) as [[tl1 Htl1] [br1 Hbr1]].
  { unfold well_formed. by rewrite (cells_shape fuel h1 h self E1), Hcs. }
  set (fn := set_shrink false
        (set_height (vy tl1 - vy br1 + qc 2 * padding)
        (set_width (vx br1 - vx tl1 + qc 2 * padding)
        (set_label label
        (set_location (mkV (qc 0) (qc 0))
        (nodes_new_default tree "NodeFrame")))))).
  set (h4 := h1 ++ [ONode fn]).
  assert (Hcs4 : cells fuel h4 self = Some cs).
  { apply cells_app. by rewrite (cells_shape fuel h1 h self E1). }
  destruct (add_to_frame_spec frame fuel self h4 cs Hcs4)
    as (h5 & Hrun5 & Hfr & Hpar5).
  pose proof Hfr as (E5 & _ & _).
  assert (Hself1 : h1 !! self = Some (OBlock b)).
  { eapply shape_block; [symmetry; exact E1|done]. }
  assert (Hself4 : h4 !! self = Some (OBlock b))
    by (by apply lookup_app_l_Some).
  assert (Hself5 : h5 !! self = Some (OBlock b)).
  { eapply shape_block; [symmetry; exact E5|done]. }
  set (b' := set_children [frame] b).
  set (h6 := <[self := OBlock b']> h5).
  assert (Hself6 : h6 !! self = Some (OBlock b')).
  { apply list_lookup_insert_eq. by eapply lookup_lt_Some. }
  assert (Hne : self ≠ bottom_right_ref b).
  { intros E. apply is_vec_true in Hbrv as [v Hv]. congruence. }
  assert (Hbr6 : is_vec h6 (bottom_right_ref b') = true).
  { simpl. unfold is_vec, h6. rewrite list_lookup_insert_ne by done.
    fold (is_vec h5 (bottom_right_ref b)).
    rewrite (shape_is_vec h5 h4 _ E5). apply is_vec_app.
    by rewrite (shape_is_vec h1 h _ E1). }
  exists fn, h5. split; [done|]. split.
  - intros l n Hcont Hl.
    destruct (shape_node h h1 l n) as [n1 Hn1]; [done|done|].
    apply (Hpar5 l n1).
    + apply contains_app. eapply contains_shape; [|done]. done.
    + by apply lookup_app_l_Some.
  - unfold Block_framify.
    erewrite bind_Some by (by eapply move_to_cells).
    fold h1. erewrite bind_Some by reflexivity.
    do 2 (erewrite bind_Some by apply setattr_node_last).
    erewrite (bind_Some (width self)).
    2:{ rewrite width_run.
        by rewrite (tl_of_app _ _ _ _ Htl1), (br_of_app _ _ _ _ Hbr1). }
    erewrite (bind_Some (height self)).
    2:{ rewrite height_run.
        by rewrite (tl_of_app _ _ _ _ Htl1), (br_of_app _ _ _ _ Hbr1). }
    do 3 (erewrite bind_Some by apply setattr_node_last).
    fold fn. fold h4. rewrite Hlen1. fold frame.
    erewrite bind_Some by exact Hrun5.
    erewrite bind_Some by (by apply setattr_block_Some).
    fold b'. fold h6.
    erewrite bind_Some by (by apply read_block_Some).
    by rewrite (iadd_bump _ _ _ Hbr6).
Qed.

End framify.

Section bounding_box.
Implicit Types (a b x y : Qc) (l : list Qc).

Lemma py_min_le_l a b : py_min a b <= a.
Proof.
  unfold py_min. case_decide; [by apply Qclt_le_weak|apply Qcle_refl].
Qed.

Lemma py_min_le_r a b : py_min a b <= b.
Proof.
  unfold py_min. case_decide; [apply Qcle_refl|by apply Qcnot_lt_le].
Qed.

Lemma py_min_cases a b : py_min a b = a ∨ py_min a b = b.
Proof. unfold py_min. case_decide; auto. Qed.

Lemma py_max_ge_l a b : a <= py_max a b.
Proof.
  unfold py_max. case_decide; [by apply Qclt_le_weak|apply Qcle_refl].
Qed.

Lemma py_max_ge_r a b : b <= py_max a b.
Proof.
  unfold py_max. case_decide; [apply Qcle_refl|by apply Qcnot_lt_le].
Qed.

Lemma py_max_cases a b : py_max a b = a ∨ py_max a b = b.
Proof. unfold py_max. case_decide; auto. Qed.

Lemma extremum_foldl (R : relation Qc) (op : Qc → Qc → Qc) :
  Transitive R →
  (∀ a b, R (op a b) a) → (∀ a b, R (op a b) b) →
  (∀ a b, op a b = a ∨ op a b = b) →
  ∀ l x k, extremum R x k → extremum R (foldl op x l) (k ++ l).
Proof.
  intros HT Hl Hr Hc. induction l as [|y l IH]; intros x k Hx; simpl.
  { by rewrite app_nil_r. }
  replace (k ++ y :: l) with ((k ++ [y]) ++ l) by (by rewrite <- app_assoc).
  apply IH. destruct Hx as [Hin Hle]. split.
  - apply elem_of_app. destruct (Hc x y) as [-> | ->]; [by left|].
    right. by apply elem_of_cons; left.
  - intros z [Hz|Hz]%elem_of_app.
    + etrans; [apply Hl|]. by apply Hle.
    + apply elem_of_cons in Hz as [->|Hz]; [apply Hr|by inversion Hz].
Qed.

Lemma extremum_singleton (R : relation Qc) x : Reflexive R → extremum R x [x].
Proof.
  intros HR. split; [by apply elem_of_cons; left|].
  intros y Hy. apply elem_of_cons in Hy as [->|Hy]; [done|by inversion Hy].
Qed.

Lemma box_after_foldl acc cs :
  box_after false acc cs
  = (mkV (foldl py_min (vx acc.1) ((vx ∘ fst) <$> cs))
         (foldl py_max (vy acc.1) ((vy ∘ fst) <$> cs)),
     mkV (foldl py_max (vx acc.2) ((vx ∘ snd) <$> cs))
         (foldl py_min (vy acc.2) ((vy ∘ snd) <$> cs))).
Proof.
  revert acc. induction cs as [|c cs IH]; intros [[] []]; simpl; [done|].
  by rewrite IH.
Qed.

Global Instance Qcge_trans : Transitive (flip Qcle).
Proof. intros x y z Hxy Hyz. unfold flip in *. by eapply Qcle_trans. Qed.

Global Instance Qcle_trans' : Transitive Qcle.
Proof. intros x y z. apply Qcle_trans. Qed.
End bounding_box.

Section well_formed.
Implicit Types (h : heap) (e r : ref).

(** [well_formed], spelled out. *)
Lemma well_formed_unfold fuel h e :
  well_formed (S fuel) h e ↔
  (∃ n, h !! e = Some (ONode n)) ∨
  (∃ b, h !! e = Some (OBlock b) ∧
        is_vec h (top_left_ref b) = true ∧
        is_vec h (bottom_right_ref b) = true ∧
        Forall (well_formed fuel h) (children b)).
Proof.
  unfold well_formed. simpl.
  destruct (h !! e) as [[n|b|v]|] eqn:He.
  - split; [eauto|]. by eexists.
  - split.
    + intros [cs Hcs]. right. exists b.
      destruct (mapM (cells fuel h) (children b)) as [css|] eqn:Hm; [|done].
      simpl in Hcs.
      destruct (is_vec h (top_left_ref b)); [|done].
      destruct (is_vec h (bottom_right_ref b)); [|done].
      repeat split. apply (mapM_is_Some_1 (cells fuel h)). by eexists.
    + intros [[n Hn]|(b' & Hb & Ht & Hr & Hc)]; [done|].
      assert (b' = b) as -> by congruence.
      apply (mapM_is_Some_2 (cells fuel h)) in Hc as [css Hm].
      rewrite Hm. simpl. rewrite Ht, Hr. by eexists.
  - split; [by intros [? ?]|]. by intros [[? ?]|(? & ? & _)].
  - split; [by intros [? ?]|]. by intros [[? ?]|(? & ? & _)].
Qed.

Lemma well_formed_0 h e : ¬ well_formed 0 h e.
Proof. by intros [? ?]. Qed.

Lemma cells_agree fuel h (h' : heap) e cs :
  (∀ r, (r < length h)%nat → h' !! r = h !! r) →
  cells fuel h e = Some cs → cells fuel h' e = Some cs.
Proof.
  intros A. revert e cs. induction fuel as [|fuel IH]; intros e cs; [done|].
  simpl. destruct (h !! e) as [o|] eqn:He; [|done].
  rewrite (agree_lookup _ _ _ _ A He). destruct o as [n|b|v]; try done.
  destruct (mapM (cells fuel h) (children b)) as [css|] eqn:Hm; [|done].
  simpl.
  destruct (is_vec h (top_left_ref b)) eqn:Htl; [|done].
  destruct (is_vec h (bottom_right_ref b)) eqn:Hbr; [|done].
  simpl. intros [= <-].
  assert (Hm' : mapM (cells fuel h') (children b) = Some css).
  { apply mapM_Some. apply mapM_Some in Hm.
    eapply Forall2_impl; [exact Hm|]. intros x y. apply IH. }
  rewrite Hm'. simpl.
  apply is_vec_true in Htl as [v1 Hv1]. apply is_vec_true in Hbr as [v2 Hv2].
  unfold is_vec.
  by rewrite (agree_lookup _ _ _ _ A Hv1), (agree_lookup _ _ _ _ A Hv2).
Qed.
End well_formed.

Section move_laws.
Implicit Types (h : heap) (e r c : ref) (d : Vector).



Lemma iadd_None h r d : is_vec h r = false → iadd r d h = None.
Proof.
  unfold is_vec, iadd, bind, read_vec.
  by destruct (h !! r) as [[]|].
Qed.

(** Where [cells] finds no element, [move_by] fails. *)
Lemma move_by_None fuel r d h :
  cells fuel h r = None → move_by fuel r d h = None.
Proof.
  revert r h. induction fuel as [|fuel IH]; intros r h; [done|].
  assert (Hloop : ∀ l h0, mapM (cells fuel h0) l = None →
    for_each l (λ child, move_by fuel child d) h0 = None).
  { induction l as [|c l IHl]; intros h0 Hm; [done|].
    simpl in Hm. simpl for_each.
    destruct (cells fuel h0 c) as [cs|] eqn:Hc.
    - erewrite bind_Some by (by apply move_by_cells).
      apply IHl. simpl in Hm.
      destruct (mapM (cells fuel h0) l) as [css|] eqn:Hl; [done|].
      rewrite <- Hl. apply mapM_ext. intros x.
      apply cells_shape, shape_bump_all.
    - by rewrite (bind_None _ _ _ (IH _ _ Hc)). }
  simpl. destruct (h !! r) as [[n|b|v]|] eqn:Hr; try done.
  - destruct (mapM (cells fuel h) (children b)) as [css|] eqn:Hm.
    + simpl. intros Hv.
      rewrite (bind_Some _ _ _ _ _ (is_Block_block _ _ _ Hr)).
      unfold Block_move_by.
      rewrite (bind_Some _ _ _ _ _ (read_block_Some _ _ _ Hr)).
      assert (Hl : for_each (children b) (λ child, move_by fuel child d) h
                   = Some (tt, foldl (bump d) h (concat css))).
      { clear Hv Hloop. revert css h Hr Hm.
        generalize (children b). induction l as [|c l IHl]; intros css h Hr Hm.
        - simpl in Hm. by injection Hm as <-.
        - apply mapM_Some_1 in Hm.
          inversion Hm as [|? cs0 ? css0 Hc Hl]; subst.
          apply mapM_Some_2 in Hl. simpl for_each.
          erewrite bind_Some by (by apply move_by_cells).
          assert (E : shape (foldl (bump d) h cs0) = shape h)
            by apply shape_bump_all.
          rewrite (IHl css0).
          + simpl. by rewrite foldl_app.
          + eapply shape_block; [symmetry; exact E|done].
          + rewrite <- Hl. apply mapM_ext. intros x. by apply cells_shape. }
      rewrite (bind_Some _ _ _ _ _ Hl).
      set (h1 := foldl (bump d) h (concat css)) in *.
      assert (E1 : shape h = shape h1) by (symmetry; apply shape_bump_all).
      rewrite (bind_Some _ _ _ _ _
                 (read_block_Some _ _ _ (shape_block _ _ _ _ E1 Hr))).
      destruct (is_vec h (top_left_ref b)) eqn:Htl.
      * rewrite (shape_is_vec _ _ _ E1) in Htl.
        rewrite (bind_Some _ _ _ _ _ (iadd_bump _ _ d Htl)).
        assert (E2 : shape h = shape (bump d h1 (top_left_ref b))).
        { by rewrite shape_bump. }
        rewrite (bind_Some _ _ _ _ _
                   (read_block_Some _ _ _ (shape_block _ _ _ _ E2 Hr))).
        destruct (is_vec h (bottom_right_ref b)) eqn:Hbr; [discriminate Hv|].
        rewrite (shape_is_vec _ _ _ E2) in Hbr. by apply iadd_None.
      * rewrite (shape_is_vec _ _ _ E1) in Htl.
        by rewrite (bind_None _ _ _ (iadd_None _ _ d Htl)).
    + intros _.
      rewrite (bind_Some _ _ _ _ _ (is_Block_block _ _ _ Hr)).
      unfold Block_move_by.
      rewrite (bind_Some _ _ _ _ _ (read_block_Some _ _ _ Hr)).
      by rewrite (bind_None _ _ _ (Hloop _ _ Hm)).
  - intros _. unfold bind, is_Block, read_node. rewrite Hr. simpl.
    by rewrite Hr.
  - intros _. unfold bind, is_Block. by rewrite Hr.
Qed.

(** [move_by], as a function of the store. *)
Lemma move_by_run fuel r d h :
  move_by fuel r d h = (λ cs, (tt, foldl (bump d) h cs)) <$> cells fuel h r.
Proof.
  destruct (cells fuel h r) as [cs|] eqn:Hcs; simpl.
  - by apply move_by_cells.
  - by apply move_by_None.
Qed.




Lemma bump_all_block d cs h r b :
  h !! r = Some (OBlock b) → foldl (bump d) h cs !! r = Some (OBlock b).
Proof.
  intros Hr. eapply shape_block; [|exact Hr]. symmetry. apply shape_bump_all.
Qed.

Lemma bump_all_node d cs h r n :
  h !! r = Some (ONode n) →
  ∃ v, foldl (bump d) h cs !! r = Some (ONode (set_location v n)).
Proof.
  revert h n. induction cs as [|c cs IH]; intros h n Hr; simpl.
  { exists (node_location n). rewrite Hr. by destruct n. }
  destruct (decide (c = r)) as [->|Hne].
  - destruct (IH (bump d h r) (set_location (vadd (node_location n) d) n))
      as [v Hv]; [by rewrite bump_lookup, Hr|].
    exists v. by rewrite Hv.
  - apply IH. by rewrite bump_lookup_ne.
Qed.

Lemma bump_all_vec d cs h r v :
  h !! r = Some (OVec v) →
  ∃ v', foldl (bump d) h cs !! r = Some (OVec v').
Proof.
  intros Hr.
  pose proof (shape_lookup (foldl (bump d) h cs) h r (shape_bump_all d cs h))
    as K.
  rewrite Hr in K.
  destruct (foldl (bump d) h cs !! r) as [[]|]; simpl in K; try done.
  by eexists.
Qed.
End move_laws.

Lemma element_well_formed fuel (h : heap) e :
  element h fuel e ↔ well_formed fuel h e.
Proof.
  revert e. induction fuel as [|fuel IH]; intros e.
  { split; [by inversion 1|by intros [? ?]]. }
  rewrite well_formed_unfold. split.
  - inversion 1 as [? ? n Hn|? ? b Hb Ht Hr Hc]; subst; [eauto|].
    right. exists b. repeat split; try done.
    apply Forall_forall. intros c Hin. by apply IH, Hc.
  - intros [[n Hn]|(b & Hb & Ht & Hr & Hc)].
    + by eapply element_node.
    + eapply element_block; try done. intros c Hin. apply IH.
      by eapply Forall_forall in Hc.
Qed.

Section adopt.
Variable frame : ref.
Implicit Types (h : heap) (r c x : ref).

Lemma shape_adopt h c : shape (adopt frame h c) = shape h.
Proof.
  unfold shape, adopt. rewrite (list_fmap_alter kind_of _ id).
  - by apply list_alter_id.
  - apply Forall_forall. by intros [] _.
Qed.

Lemma shape_adopt_all cs h : shape (foldl (adopt frame) h cs) = shape h.
Proof.
  revert h. induction cs as [|c cs IH]; intros h; simpl; [done|].
  by rewrite IH, shape_adopt.
Qed.

Lemma adopt_vec h c : is_vec h c = true → adopt frame h c = h.
Proof.
  intros [v Hv]%is_vec_true. unfold adopt.
  rewrite <- (insert_as_alter h c (adopt_obj frame) (OVec v) Hv).
  by apply list_insert_id.
Qed.

Lemma adopt_obj_idemp o :
  adopt_obj frame (adopt_obj frame o) = adopt_obj frame o.
Proof. by destruct o. Qed.

Lemma adopt_all_lookup cs h x :
  foldl (adopt frame) h cs !! x
  = if decide (x ∈ cs) then adopt_obj frame <$> h !! x else h !! x.
Proof.
  revert h. induction cs as [|c cs IH]; intros h; simpl.
  { destruct (decide (x ∈ [])) as [Hx|]; [by apply elem_of_nil in Hx|done]. }
  rewrite IH. unfold adopt. destruct (decide (x = c)) as [->|Hne].
  - rewrite list_lookup_alter_eq.
    destruct (decide (c ∈ c :: cs)) as [_|Hn];
      [|by destruct Hn; apply elem_of_cons; left].
    destruct (decide (c ∈ cs)); [|done].
    destruct (h !! c) as [o|]; simpl; [|done]. by rewrite adopt_obj_idemp.
  - rewrite list_lookup_alter_ne by done.
    destruct (decide (x ∈ cs)) as [Hin|Hin],
      (decide (x ∈ c :: cs)) as [Hin'|Hin']; try done.
    + destruct Hin'. by apply elem_of_cons; right.
    + by apply elem_of_cons in Hin' as [?|?].
Qed.

(** [add_to_frame], as a function of the store. *)
Lemma add_to_frame_cells fuel r h cs :
  cells fuel h r = Some cs →
  add_to_frame fuel frame r h = Some (tt, foldl (adopt frame) h cs).
Proof.
  revert r h cs. induction fuel as [|fuel IH]; intros r h cs; [done|].
  assert (Hloop : ∀ l css h0, mapM (cells fuel h0) l = Some css →
    for_each l (λ child, add_to_frame fuel frame child) h0
    = Some (tt, foldl (adopt frame) h0 (concat css))).
  { induction l as [|c l IHl]; intros css h0 Hm.
    - simpl in Hm. by injection Hm as <-.
    - apply mapM_Some_1 in Hm. inversion Hm as [|? cs0 ? css0 Hc Hl]; subst.
      apply mapM_Some_2 in Hl. simpl for_each.
      rewrite (bind_Some _ _ _ _ _ (IH _ _ _ Hc)).
      rewrite (IHl css0).
      + simpl. by rewrite foldl_app.
      + rewrite <- Hl. apply mapM_ext. intros x.
        apply cells_shape, shape_adopt_all. }
  simpl. destruct (h !! r) as [[n|b|v]|] eqn:Hr; try done.
  - intros [= <-]. pose proof (add_to_frame_node frame h r n Hr fuel) as Hrun.
    simpl in Hrun. rewrite Hrun. simpl. unfold adopt.
    by rewrite <- (insert_as_alter h r (adopt_obj frame) (ONode n) Hr).
  - destruct (mapM (cells fuel h) (children b)) as [css|] eqn:Hm; [|done].
    simpl. destruct (is_vec h (top_left_ref b)) eqn:Htl; [|done].
    destruct (is_vec h (bottom_right_ref b)) eqn:Hbr; [|done].
    simpl. intros [= <-].
    rewrite (bind_Some _ _ _ _ _ (is_Block_block _ _ _ Hr)).
    rewrite (bind_Some _ _ _ _ _ (read_block_Some _ _ _ Hr)).
    rewrite (Hloop _ _ _ Hm), foldl_app. simpl.
    set (h1 := foldl (adopt frame) h (concat css)).
    assert (E1 : shape h = shape h1) by (symmetry; apply shape_adopt_all).
    rewrite (shape_is_vec _ _ _ E1) in Htl.
    rewrite (shape_is_vec _ _ _ E1) in Hbr.
    rewrite (adopt_vec h1 _ Htl). by rewrite (adopt_vec h1 _ Hbr).
Qed.
End adopt.

Section containment.
Implicit Types (h : heap) (r c x : ref).

Lemma concat_in_cells fuel h blocks css x :
  Forall2 (λ e cs, cells fuel h e = Some cs) blocks css → x ∈ concat css →
  ∃ e cs, e ∈ blocks ∧ cells fuel h e = Some cs ∧ x ∈ cs.
Proof.
  induction 1 as [|e cs blocks css He _ IH]; simpl; intros Hx;
    [by inversion Hx|].
  apply elem_of_app in Hx as [Hx|Hx].
  - exists e, cs. split; [by apply elem_of_cons; left|done].
  - destruct (IH Hx) as (e' & cs' & Hin & Hc & Hx').
    exists e', cs'. split; [by apply elem_of_cons; right|done].
Qed.

(** The nodes among the cells of an element are the nodes it contains. *)
Lemma cells_node_contains fuel h r cs x n :
  cells fuel h r = Some cs → x ∈ cs → h !! x = Some (ONode n) →
  contains h r x.
Proof.
  revert r cs. induction fuel as [|fuel IH]; intros r cs; [done|].
  simpl. destruct (h !! r) as [[n0|b|v]|] eqn:Hr; try done.
  - intros [= <-] Hx _. apply elem_of_cons in Hx as [->|Hx];
      [constructor|by inversion Hx].
  - destruct (mapM (cells fuel h) (children b)) as [css|] eqn:Hm; [|done].
    simpl. destruct (is_vec h (top_left_ref b)) eqn:Htl; [|done].
    destruct (is_vec h (bottom_right_ref b)) eqn:Hbr; [|done].
    simpl. intros [= <-] Hx Hn.
    apply elem_of_app in Hx as [Hx|Hx].
    + apply mapM_Some_1 in Hm.
      destruct (concat_in_cells _ _ _ _ _ Hm Hx) as (e & cs & Hin & Hc & Hx').
      eapply contains_child; [exact Hr|exact Hin|]. by eapply IH.
    + unfold is_vec in Htl, Hbr.
      apply elem_of_cons in Hx as [->|Hx]; [by rewrite Hn in Htl|].
      apply elem_of_cons in Hx as [->|Hx]; [by rewrite Hn in Hbr|].
      by inversion Hx.
Qed.

Lemma contains_node_cells fuel h r cs x n :
  cells fuel h r = Some cs → contains h r x → h !! x = Some (ONode n) →
  x ∈ cs.
Proof.
  intros Hcs Hcont Hn. revert fuel cs Hcs.
  induction Hcont as [r|r b c x Hr Hc _ IH]; intros fuel cs Hcs.
  - rewrite (cells_node _ _ _ _ _ Hcs Hn). by apply elem_of_cons; left.
  - destruct fuel as [|fuel]; [done|]. simpl in Hcs. rewrite Hr in Hcs.
    destruct (mapM (cells fuel h) (children b)) as [css|] eqn:Hm; [|done].
    simpl in Hcs.
    destruct (is_vec h (top_left_ref b) && is_vec h (bottom_right_ref b));
      [|done].
    injection Hcs as <-. apply mapM_Some_1 in Hm.
    destruct (cells_in_concat _ _ _ _ _ Hm Hc) as (cc & Hcc & Hsub).
    apply elem_of_app. left. apply Hsub. by eapply IH.
Qed.

End containment.

Section framify_store.
Implicit Types (h : heap) (self l : ref).


End framify_store.

Section numbers.
Implicit Types (a b x y : Qc) (l : list Qc).









End numbers.

Section boxes.
Context {S : Type} (target : Qc → Qc → S → Vector) (next : Qc → Qc → S → S).
Implicit Types (h : heap) (e : ref) (s : S) (sizes : list (Qc * Qc)).




End boxes.

Section box_bounds.
Implicit Types (c : Vector * Vector) (cs : list (Vector * Vector)).

(** The box of a non-empty Block is the bounding box of the boxes it
    was built from. *)
Lemma box_after_bounds c cs :
  let b := box_after true (mkV (qc 0) (qc 0), mkV (qc 0) (qc 0)) (c :: cs) in
  extremum Qcle (vx b.1) ((vx ∘ fst) <$> c :: cs) ∧
  extremum (flip Qcle) (vy b.1) ((vy ∘ fst) <$> c :: cs) ∧
  extremum (flip Qcle) (vx b.2) ((vx ∘ snd) <$> c :: cs) ∧
  extremum Qcle (vy b.2) ((vy ∘ snd) <$> c :: cs).
Proof.
  simpl. rewrite box_after_foldl. simpl. split; [|split; [|split]].
  - apply (extremum_foldl Qcle py_min _ py_min_le_l py_min_le_r py_min_cases
             _ _ [_]), extremum_singleton. intros x. apply Qcle_refl.
  - apply (extremum_foldl (flip Qcle) py_max _ py_max_ge_l py_max_ge_r
             py_max_cases _ _ [_]), extremum_singleton.
    intros x. apply Qcle_refl.
  - apply (extremum_foldl (flip Qcle) py_max _ py_max_ge_l py_max_ge_r
             py_max_cases _ _ [_]), extremum_singleton.
    intros x. apply Qcle_refl.
  - apply (extremum_foldl Qcle py_min _ py_min_le_l py_min_le_r py_min_cases
             _ _ [_]), extremum_singleton. intros x. apply Qcle_refl.
Qed.
End box_bounds.

Section align_corners.
Context {S : Type} (fuel : nat) (target : Qc → Qc → S → Vector)
  (next : Qc → Qc → S → S).
Implicit Types (h : heap) (e : ref) (s : S).

End align_corners.

Section boxes_at.
Context {S : Type} (target : Qc → Qc → S → Vector) (next : Qc → Qc → S → S).
Implicit Types (h : heap) (e : ref) (s : S) (sizes : list (Qc * Qc)).


End boxes_at.

Section row_col.
Implicit Types (h : heap) (e : ref) (blocks : list ref).





End row_col.

Section spans.
Implicit Types (a b c d : Qc).

Lemma Qcminus_le_compat a b c d : a <= b → c <= d → a - d <= b - c.
Proof.
  intros H1 H2. unfold Qcminus. apply Qcplus_le_compat; [done|].
  by apply Qcopp_le_compat.
Qed.
End spans.

Section wrap.
Implicit Types (h : heap) (c r : ref) (d : Vector).

End wrap.

(** * Adding a child *)

(** Property X1.  The first child fixes the box of a Block: afterwards the
    Block's corners read as the child's. Its [bottom_right] is a new Vector;
    its [top_left] is new when the child is a node, and is the child's own
    [top_left] Vector when the child is a Block. *)
Theorem Block_add_first_child (h : heap) self b child tl br :
  h !! self = Some (OBlock b) → children b = [] →
  top_left_val h child = Some tl → bottom_right_val h child = Some br →
  ∃ (h' : heap) b',
    exec (Block_add self child) h = Some h' ∧
    h' !! self = Some (OBlock b') ∧
    children b' = [child] ∧
    top_left_val h' self = Some tl ∧
    bottom_right_val h' self = Some br ∧
    match h !! child with
    | Some (OBlock bc) => top_left_ref b' = top_left_ref bc
    | _ => h !! top_left_ref b' = None
    end ∧
    h !! bottom_right_ref b' = None ∧
    (∀ r, r ≠ self → (r < length h)%nat → h' !! r = h !! r).
Proof.
  rewrite top_left_val_eq, bottom_right_val_eq.
  intros Hs Hch Htl Hbr.
  destruct (Block_add_first_run h self b child tl br)
    as (h' & tlr & brr & Hrun & [_ G] & Hs' & Ht & Hb & Hw & Hf); try done.
  exists h', (mkBlock [child] tlr brr).
  split; [unfold exec; by rewrite Hrun|].
  split; [done|]. split; [done|].
  rewrite top_left_val_eq, bottom_right_val_eq. unfold tl_of, br_of.
  rewrite Hs'. simpl. rewrite Ht, Hb. done.
Qed.

Lemma Block_add_first_child_witness :
  (empty_block_store !! 4%nat = Some (OBlock (mkBlock [] 2 3)) ∧
   top_left_val empty_block_store 0 = Some (mkV (qc 7) (qc 8)) ∧
   bottom_right_val empty_block_store 0 = Some (mkV (qc 17) (qc 1))) ∧
  ∃ (h' : heap) b',
    exec (Block_add 4 0) empty_block_store = Some h' ∧
    h' !! 4%nat = Some (OBlock b') ∧
    children b' = [0%nat] ∧
    top_left_val h' 4 = Some (mkV (qc 7) (qc 8)) ∧
    bottom_right_val h' 4 = Some (mkV (qc 17) (qc 1)) ∧
    match empty_block_store !! 0%nat with
    | Some (OBlock bc) => top_left_ref b' = top_left_ref bc
    | _ => empty_block_store !! top_left_ref b' = None
    end ∧
    empty_block_store !! bottom_right_ref b' = None ∧
    (∀ r, r ≠ 4%nat → (r < length empty_block_store)%nat →
          h' !! r = empty_block_store !! r).
Proof.
  assert (H1 : empty_block_store !! 4%nat = Some (OBlock (mkBlock [] 2 3)))
    by (vm_compute; reflexivity).
  assert (H2 : top_left_val empty_block_store 0 = Some (mkV (qc 7) (qc 8)))
    by (vm_compute; reflexivity).
  assert (H3 : bottom_right_val empty_block_store 0
               = Some (mkV (qc 17) (qc 1)))
    by (vm_compute; reflexivity).
  split; [by repeat split|].
  exact (Block_add_first_child empty_block_store 4 _ 0 _ _ H1 eq_refl H2 H3).
Defined.

(** Property X2.  A further child widens the box: the Block's corners become
    the union of its box so far and the child's box, held in two new
    Vectors, so that nothing is shared with a child from then on. *)
Theorem Block_add_next_child (h : heap) self b child stl sbr tl br :
  h !! self = Some (OBlock b) → children b ≠ [] →
  top_left_val h self = Some stl → bottom_right_val h self = Some sbr →
  top_left_val h child = Some tl → bottom_right_val h child = Some br →
  ∃ (h' : heap) b' tl' br',
    exec (Block_add self child) h = Some h' ∧
    h' !! self = Some (OBlock b') ∧
    children b' = children b ++ [child] ∧
    h !! top_left_ref b' = None ∧
    h !! bottom_right_ref b' = None ∧
    top_left_val h' self = Some tl' ∧
    bottom_right_val h' self = Some br' ∧
    extremum Qcle (vx tl') [vx stl; vx tl] ∧
    extremum (flip Qcle) (vy tl') [vy stl; vy tl] ∧
    extremum (flip Qcle) (vx br') [vx sbr; vx br] ∧
    extremum Qcle (vy br') [vy sbr; vy br] ∧
    (∀ r, r ≠ self → (r < length h)%nat → h' !! r = h !! r).
Proof.
  rewrite !top_left_val_eq, !bottom_right_val_eq.
  intros Hs Hch Hstl Hsbr Htl Hbr.
  assert (Hstl' : h !! top_left_ref b = Some (OVec stl)).
  { unfold tl_of in Hstl. rewrite Hs in Hstl.
    by destruct (h !! top_left_ref b) as [[| |v]|]; simplify_eq. }
  assert (Hsbr' : h !! bottom_right_ref b = Some (OVec sbr)).
  { unfold br_of in Hsbr. rewrite Hs in Hsbr.
    by destruct (h !! bottom_right_ref b) as [[| |v]|]; simplify_eq. }
  destruct (Block_add_more_run h self b child stl sbr tl br)
    as (h' & Hrun & [_ G] & Hs' & Ht & Hb); try done.
  exists h', (mkBlock (children b ++ [child]) (length h) (S (length h))),
    (union_tl stl tl), (union_br sbr br).
  split; [unfold exec; by rewrite Hrun|].
  split; [done|]. split; [done|]. simpl.
  split; [by apply lookup_ge_None|].
  split; [apply lookup_ge_None; lia|].
  rewrite top_left_val_eq, bottom_right_val_eq. unfold tl_of, br_of.
  rewrite Hs'. simpl. rewrite Ht, Hb.
  split; [done|]. split; [done|].
  assert (Hr : Reflexive Qcle) by (intros x; apply Qcle_refl).
  assert (Hr' : Reflexive (flip Qcle)) by (intros x; apply Qcle_refl).
  split; [|split; [|split; [|split]]]; [| | | |done].
  - exact (extremum_foldl Qcle py_min _ py_min_le_l py_min_le_r py_min_cases
             [vx tl] (vx stl) [vx stl] (extremum_singleton _ _ Hr)).
  - exact (extremum_foldl (flip Qcle) py_max _ py_max_ge_l py_max_ge_r
             py_max_cases [vy tl] (vy stl) [vy stl]
             (extremum_singleton _ _ Hr')).
  - exact (extremum_foldl (flip Qcle) py_max _ py_max_ge_l py_max_ge_r
             py_max_cases [vx br] (vx sbr) [vx sbr]
             (extremum_singleton _ _ Hr')).
  - exact (extremum_foldl Qcle py_min _ py_min_le_l py_min_le_r py_min_cases
             [vy br] (vy sbr) [vy sbr] (extremum_singleton _ _ Hr)).
Qed.

Lemma Block_add_next_child_witness :
  (group_store !! 5%nat = Some (OBlock (mkBlock [0; 1]%nat 8 9)) ∧
   children (mkBlock [0; 1]%nat 8 9) ≠ [] ∧
   top_left_val group_store 5 = Some (mkV (qc 3) (qc 8)) ∧
   bottom_right_val group_store 5 = Some (mkV (qc 12) (qc (-16))) ∧
   top_left_val group_store 2 = Some (mkV (qc 1) (qc 1)) ∧
   bottom_right_val group_store 2 = Some (mkV (qc 6) (qc (-29)))) ∧
  ∃ (h' : heap) b' tl' br',
    exec (Block_add 5%nat 2%nat) group_store = Some h' ∧
    h' !! 5%nat = Some (OBlock b') ∧
    children b' = children (mkBlock [0; 1]%nat 8 9) ++ [2%nat] ∧
    group_store !! top_left_ref b' = None ∧
    group_store !! bottom_right_ref b' = None ∧
    top_left_val h' 5%nat = Some tl' ∧
    bottom_right_val h' 5%nat = Some br' ∧
    extremum Qcle (vx tl') [vx (mkV (qc 3) (qc 8)); vx (mkV (qc 1) (qc 1))] ∧
    extremum (flip Qcle) (vy tl') [vy (mkV (qc 3) (qc 8)); vy (mkV (qc 1) (qc
      1))] ∧
    extremum (flip Qcle) (vx br') [vx (mkV (qc 12) (qc (-16))); vx (mkV (qc 6)
      (qc (-29)))] ∧
    extremum Qcle (vy br') [vy (mkV (qc 12) (qc (-16))); vy (mkV (qc 6) (qc
      (-29)))] ∧
    (∀ r, r ≠ 5%nat → (r < length group_store)%nat →
      h' !! r = group_store !! r).
Proof.
  assert (H1 : group_store !! 5%nat = Some (OBlock (mkBlock [0; 1]%nat 8 9)))
    by (vm_compute; reflexivity).
  assert (H2 : children (mkBlock [0; 1]%nat 8 9) ≠ [])
    by by_evaluation.
  assert (H3 : top_left_val group_store 5 = Some (mkV (qc 3) (qc 8)))
    by by_evaluation.
  assert (H4 : bottom_right_val group_store 5 = Some (mkV (qc 12) (qc (-16))))
    by by_evaluation.
  assert (H5 : top_left_val group_store 2 = Some (mkV (qc 1) (qc 1)))
    by by_evaluation.
  assert (H6 : bottom_right_val group_store 2 = Some (mkV (qc 6) (qc (-29))))
    by by_evaluation.
  split; [by repeat split|].
  exact (Block_add_next_child group_store 5 _ 2 _ _ _ _ H1 H2 H3 H4 H5 H6).
Defined.

(** * The constructor *)

(** What the constructor builds from elements is an element, one level
    deeper, and its children stay elements. *)
Theorem Block_init_well_formed fuel (h : heap) blocks :
  Forall (well_formed fuel h) blocks →
  ∃ g h',
    Block_init blocks h = Some (g, h') ∧
    well_formed (S fuel) h' g ∧
    Forall (well_formed fuel h') blocks.
Proof.
  intros Hwf.
  assert (∃ css, mapM (cells fuel h) blocks = Some css) as [css Hm].
  { by apply (mapM_is_Some_2 (cells fuel h)). }
  destruct (mapM_corners _ _ _ _ Hm) as [cs Hcs].
  destruct (Block_init_spec h blocks cs Hcs)
    as (g & h' & tlr & brr & Hrun & _ & A & Hg & Htl & Hbr).
  assert (Hwf' : Forall (well_formed fuel h') blocks).
  { eapply Forall_impl; [exact Hwf|]. intros e [ce He].
    exists ce. by apply (cells_agree fuel h h'). }
  exists g, h'. split; [done|]. split; [|done].
  apply well_formed_unfold. right. eexists. split; [exact Hg|].
  unfold is_vec. simpl. by rewrite Htl, Hbr.
Qed.

(** Property X3.  After construction from at least one child, the cached
    corners are the bounding box of the children: the least left edge, the
    greatest top edge, the greatest right edge and the least bottom edge. *)
Theorem Block_init_bounding_box (h : heap) blocks cs :
  blocks ≠ [] →
  mapM (corners_of h) blocks = Some cs →
  ∃ g h' tl br,
    Block_init blocks h = Some (g, h') ∧
    top_left_val h' g = Some tl ∧
    bottom_right_val h' g = Some br ∧
    Forall2 (λ e c, top_left_val h' e = Some c.1 ∧
                    bottom_right_val h' e = Some c.2) blocks cs ∧
    extremum Qcle (vx tl) ((vx ∘ fst) <$> cs) ∧
    extremum (flip Qcle) (vy tl) ((vy ∘ fst) <$> cs) ∧
    extremum (flip Qcle) (vx br) ((vx ∘ snd) <$> cs) ∧
    extremum Qcle (vy br) ((vy ∘ snd) <$> cs).
Proof.
  intros Hne Hm.
  destruct (Block_init_spec h blocks cs Hm)
    as (g & h' & tlr & brr & Hrun & Hg & A & Hg' & Htl & Hbr).
  destruct cs as [|c cs].
  { apply length_mapM in Hm. by destruct blocks. }
  simpl in Htl, Hbr. rewrite box_after_foldl in Htl, Hbr. simpl in Htl, Hbr.
  eexists g, h', _, _. split; [done|].
  rewrite top_left_val_eq, bottom_right_val_eq. unfold tl_of, br_of.
  rewrite Hg'. simpl. rewrite Htl, Hbr.
  split; [done|]. split; [done|]. split.
  { apply mapM_Some_1 in Hm. eapply Forall2_impl; [exact Hm|].
    intros e c' [Ht Hb]%corners_of_Some.
    rewrite top_left_val_eq, bottom_right_val_eq.
    by rewrite (tl_of_agree _ _ _ _ A Ht), (br_of_agree _ _ _ _ A Hb). }
  simpl. split; [|split; [|split]].
  - apply (extremum_foldl Qcle py_min _ py_min_le_l py_min_le_r py_min_cases
             _ _ [_]), extremum_singleton. intros x. apply Qcle_refl.
  - apply (extremum_foldl (flip Qcle) py_max _ py_max_ge_l py_max_ge_r
             py_max_cases _ _ [_]), extremum_singleton.
    intros x. apply Qcle_refl.
  - apply (extremum_foldl (flip Qcle) py_max _ py_max_ge_l py_max_ge_r
             py_max_cases _ _ [_]), extremum_singleton.
    intros x. apply Qcle_refl.
  - apply (extremum_foldl Qcle py_min _ py_min_le_l py_min_le_r py_min_cases
             _ _ [_]), extremum_singleton. intros x. apply Qcle_refl.
Qed.

Lemma Block_init_bounding_box_witness :
  (([0; 1]%nat : list nat) ≠ [] ∧
   mapM (corners_of two_nodes) [0; 1]%nat = Some two_corners) ∧
  ∃ g h' tl br,
    Block_init [0; 1]%nat two_nodes = Some (g, h') ∧
    top_left_val h' g = Some tl ∧
    bottom_right_val h' g = Some br ∧
    Forall2 (λ e c, top_left_val h' e = Some c.1 ∧
                    bottom_right_val h' e = Some c.2) [0; 1]%nat two_corners ∧
    extremum Qcle (vx tl) ((vx ∘ fst) <$> two_corners) ∧
    extremum (flip Qcle) (vy tl) ((vy ∘ fst) <$> two_corners) ∧
    extremum (flip Qcle) (vx br) ((vx ∘ snd) <$> two_corners) ∧
    extremum Qcle (vy br) ((vy ∘ snd) <$> two_corners).
Proof.
  assert (H1 : ([0; 1]%nat : list nat) ≠ [])
    by by_evaluation.
  assert (H2 : mapM (corners_of two_nodes) [0; 1]%nat = Some two_corners)
    by by_evaluation.
  split; [by repeat split|].
  exact (Block_init_bounding_box two_nodes [0; 1]%nat two_corners H1 H2).
Defined.

(** Property X4.  The constructor returns a new Block whose children are the
    given elements, in the order given; the objects that were there before
    are untouched, and the new Block is an element one level deeper. *)
Theorem Block_init_children fuel (h : heap) blocks :
  Forall (well_formed fuel h) blocks →
  ∃ g (h' : heap) b,
    Block_init blocks h = Some (g, h') ∧
    h !! g = None ∧
    h' !! g = Some (OBlock b) ∧
    children b = blocks ∧
    (∀ r, (r < length h)%nat → h' !! r = h !! r) ∧
    well_formed (S fuel) h' g.
Proof.
  intros Hwf.
  assert (∃ css, mapM (cells fuel h) blocks = Some css) as [css Hm].
  { by apply (mapM_is_Some_2 (cells fuel h)). }
  destruct (mapM_corners _ _ _ _ Hm) as [cs Hcs].
  destruct (Block_init_spec h blocks cs Hcs)
    as (g & h' & tlr & brr & Hrun & Hnew & A & Hg & Htl & Hbr).
  exists g, h', (mkBlock blocks tlr brr).
  split; [done|]. split; [done|]. split; [done|]. split; [done|].
  split; [done|].
  apply well_formed_unfold. right. eexists. split; [exact Hg|].
  unfold is_vec. simpl. rewrite Htl, Hbr. split; [done|]. split; [done|].
  eapply Forall_impl; [exact Hwf|]. intros e [ce He].
  exists ce. by apply (cells_agree fuel h h').
Qed.

Lemma Block_init_children_witness :
  (Forall (well_formed 1 three_nodes) [0; 1; 2]%nat) ∧
  ∃ g (h' : heap) b,
    Block_init [0; 1; 2]%nat three_nodes = Some (g, h') ∧
    three_nodes !! g = None ∧
    h' !! g = Some (OBlock b) ∧
    children b = [0; 1; 2]%nat ∧
    (∀ r, (r < length three_nodes)%nat → h' !! r = three_nodes !! r) ∧
    well_formed (S 1) h' g.
Proof.
  assert (H1 : Forall (well_formed 1 three_nodes) [0; 1; 2]%nat)
    by by_evaluation.
  split; [exact H1|].
  exact (Block_init_children 1 three_nodes [0; 1; 2]%nat H1).
Defined.

(** Property X5.  A Block built by the constructor is at least as wide and
    as high as each of its children. *)
Theorem Block_init_covers fuel (h : heap) blocks e :
  Forall (well_formed fuel h) blocks → e ∈ blocks →
  ∃ g (h' : heap) w ht wg hg,
    Block_init blocks h = Some (g, h') ∧
    width_val h e = Some w ∧ height_val h e = Some ht ∧
    width_val h' g = Some wg ∧ height_val h' g = Some hg ∧
    w <= wg ∧ ht <= hg.
Proof.
  intros Hwf Hin.
  assert (∃ css, mapM (cells fuel h) blocks = Some css) as [css Hm].
  { by apply (mapM_is_Some_2 (cells fuel h)). }
  destruct (mapM_corners _ _ _ _ Hm) as [cs Hcs].
  destruct (Block_init_spec h blocks cs Hcs)
    as (g & h' & tlr & brr & Hrun & _ & _ & Hg & Htl & Hbr).
  apply list_elem_of_lookup in Hin as [i Hi].
  apply mapM_Some_1 in Hcs.
  destruct (Forall2_lookup_l _ _ _ _ _ Hcs Hi) as ([tl br] & Hc & He).
  apply corners_of_Some in He as [Ht Hb]. simpl in Ht, Hb.
  destruct cs as [|c cs]; [done|].
  destruct (box_after_bounds c cs) as ([_ Hx1] & [_ Hy1] & [_ Hx2] & [_ Hy2]).
  set (bx := box_after true (mkV (qc 0) (qc 0), mkV (qc 0) (qc 0)) (c :: cs))
    in *.
  assert (Htg : tl_of h' g = Some bx.1).
  { unfold tl_of. by rewrite Hg; simpl; rewrite Htl. }
  assert (Hbg : br_of h' g = Some bx.2).
  { unfold br_of. by rewrite Hg; simpl; rewrite Hbr. }
  exists g, h', (vx br - vx tl), (vy tl - vy br),
    (vx bx.2 - vx bx.1), (vy bx.1 - vy bx.2).
  split; [done|].
  rewrite (width_val_Some _ _ _ _ Ht Hb), (height_val_Some _ _ _ _ Ht Hb).
  rewrite (width_val_Some _ _ _ _ Htg Hbg), (height_val_Some _ _ _ _ Htg Hbg).
  do 4 (split; [done|]).
  assert (I1 : tl ∈ fst <$> c :: cs).
  { apply list_elem_of_fmap. exists (tl, br). split; [done|].
    by eapply list_elem_of_lookup_2. }
  assert (I2 : br ∈ snd <$> c :: cs).
  { apply list_elem_of_fmap. exists (tl, br). split; [done|].
    by eapply list_elem_of_lookup_2. }
  split; apply Qcminus_le_compat.
  - apply (Hx2 (vx br)). rewrite list_fmap_compose.
    apply list_elem_of_fmap. by exists br.
  - apply (Hx1 (vx tl)). rewrite list_fmap_compose.
    apply list_elem_of_fmap. by exists tl.
  - apply (Hy1 (vy tl)). rewrite list_fmap_compose.
    apply list_elem_of_fmap. by exists tl.
  - apply (Hy2 (vy br)). rewrite list_fmap_compose.
    apply list_elem_of_fmap. by exists br.
Qed.

Lemma Block_init_covers_witness :
  (Forall (well_formed 1 three_nodes) [0; 1; 2]%nat ∧
   1%nat ∈ [0; 1; 2]%nat) ∧
  ∃ g (h' : heap) w ht wg hg,
    Block_init [0; 1; 2]%nat three_nodes = Some (g, h') ∧
    width_val three_nodes 1 = Some w ∧ height_val three_nodes 1 = Some ht ∧
    width_val h' g = Some wg ∧ height_val h' g = Some hg ∧
    w <= wg ∧ ht <= hg.
Proof.
  assert (H1 : Forall (well_formed 1 three_nodes) [0; 1; 2]%nat)
    by by_evaluation.
  assert (H2 : 1%nat ∈ [0; 1; 2]%nat) by by_evaluation.
  split; [by split|].
  exact (Block_init_covers 1 three_nodes [0; 1; 2]%nat 1 H1 H2).
Defined.

(** * Elements that share nothing *)

(** A Block built from two nodes shares nothing; a Block built from a
    single Block shares its [top_left] Vector with it. *)
Example two_children_separate :
  separate 2 (store_after (Block_init [0; 1]%nat) two_nodes) 4.
Proof. apply (bool_decide_eq_true_1 _). vm_compute. reflexivity. Qed.

Example nested_block_not_separate : ¬ separate 3 nested_store 8.
Proof. apply (bool_decide_eq_false_1 _). vm_compute. reflexivity. Qed.













(** * A Block built from a single Block *)



(** * Laws of moves *)

(** Property X13.  [move_by] returns exactly on elements: it fails when,
    within the recursion bound, it meets a reference that names nothing, a
    Vector in the place of an element, or a Block whose [top_left] or
    [bottom_right] is not a Vector. *)
Theorem move_by_returns_iff fuel (h : heap) e d :
  is_Some (move_by fuel e d h) ↔ element h fuel e.
Proof.
  rewrite element_well_formed, move_by_run. unfold well_formed.
  destruct (cells fuel h e); simpl; split; intros [? ?]; by eauto.
Qed.





(** Property X16.  [move_by] creates no object, never changes a Block object
    (its children and the Vectors its corners are bound to stay), and
    changes nothing of a node but its location. *)
Theorem move_by_keeps_structure fuel (h h' : heap) e d :
  exec (move_by fuel e d) h = Some h' →
  length h' = length h ∧
  (∀ r b, h !! r = Some (OBlock b) → h' !! r = Some (OBlock b)) ∧
  (∀ r n, h !! r = Some (ONode n) →
          ∃ v, h' !! r = Some (ONode (set_location v n))) ∧
  (∀ r v, h !! r = Some (OVec v) → ∃ v', h' !! r = Some (OVec v')).
Proof.
  unfold exec. rewrite move_by_run.
  destruct (cells fuel h e) as [cs|]; [|done]. simpl. intros [= <-].
  split; [apply shape_length, shape_bump_all|]. split; [|split].
  - intros r b. apply bump_all_block.
  - intros r n. apply bump_all_node.
  - intros r v. apply bump_all_vec.
Qed.

Lemma move_by_keeps_structure_witness :
  ∃ h',
    exec (move_by 3 8 (mkV (qc 1) (qc 2))) nested_store = Some h' ∧
    length h' = length nested_store ∧
    (∀ r b, nested_store !! r = Some (OBlock b) → h' !! r = Some (OBlock b)) ∧
    (∀ r n, nested_store !! r = Some (ONode n) →
            ∃ v, h' !! r = Some (ONode (set_location v n))) ∧
    (∀ r v, nested_store !! r = Some (OVec v) → ∃ v', h' !! r = Some (OVec v')).
Proof.
  eexists. 
  assert (H : exec (move_by 3 8 (mkV (qc 1) (qc 2))) nested_store
              = Some (store_after (move_by 3 8 (mkV (qc 1) (qc 2)))
                                  nested_store))
    by (vm_compute; reflexivity).
  split; [exact H|].
  exact (move_by_keeps_structure 3 nested_store _ 8 _ H).
Defined.



(** * The frame *)

(** Property X18.  [add_to_frame] sets the parent of every node contained in
    the block to the frame, and changes nothing else: no object is created,
    and every other object, and every other attribute of the nodes, is as
    before. *)
Theorem add_to_frame_effect fuel frame (h : heap) e :
  well_formed fuel h e →
  ∃ h',
    exec (add_to_frame fuel frame e) h = Some h' ∧
    length h' = length h ∧
    (∀ l n, contains h e l → h !! l = Some (ONode n) →
            h' !! l = Some (ONode (set_parent (Some frame) n))) ∧
    (∀ x o, h !! x = Some o → (∀ n, o = ONode n → ¬ contains h e x) →
            h' !! x = Some o).
Proof.
  intros [cs Hcs]. exists (foldl (adopt frame) h cs).
  unfold exec. rewrite (add_to_frame_cells frame _ _ _ _ Hcs).
  split; [done|]. split; [apply shape_length, shape_adopt_all|]. split.
  - intros l n Hc Hl. rewrite adopt_all_lookup.
    rewrite decide_True by (by eapply contains_node_cells).
    by rewrite Hl.
  - intros x o Hx Hno. rewrite adopt_all_lookup.
    destruct (decide (x ∈ cs)) as [Hin|]; [|done].
    rewrite Hx. destruct o as [n| |]; try done.
    destruct (Hno n eq_refl). by eapply cells_node_contains.
Qed.

Lemma add_to_frame_effect_witness :
  well_formed 3 nested_store 8 ∧
  ∃ h',
    exec (add_to_frame 3 10 8) nested_store = Some h' ∧
    length h' = length nested_store ∧
    (∀ l n, contains nested_store 8 l → nested_store !! l = Some (ONode n) →
            h' !! l = Some (ONode (set_parent (Some 10%nat) n))) ∧
    (∀ x o, nested_store !! x = Some o →
            (∀ n, o = ONode n → ¬ contains nested_store 8 x) →
            h' !! x = Some o).
Proof.
  assert (H : well_formed 3 nested_store 8)
    by (eexists; vm_compute; reflexivity).
  split; [exact H|].
  exact (add_to_frame_effect 3 10 nested_store 8 H).
Defined.





(** * Rows and columns *)









(** * The claims *)

(** ** Frame wrap *)

(** Claim C1.  [framify] is claimed to make the group wider and higher
    by [2 * padding = 60].  On the group [Block(node)] with a node of
    size 10 x 100, the width goes from 10 to 70, but the height goes
    from 100 to 40: [bottom_right += (60, 60)] raises the bottom edge,
    where y grows upwards. *)
Theorem framify_height_shrinks :
  fst <$> (g <~ Block_init [0%nat] ;;
           w0 <~ width g ;; h0 <~ height g ;;
           Block_framify 2 g example_tree "Mix" ;;;
           w1 <~ width g ;; h1 <~ height g ;;
           ret (w0, h0, w1, h1)) tall_node
  = Some (qc 10, qc 100, qc 70, qc 40).
Proof. by_evaluation. Qed.

(** Claim C5.  After [framify] the group's children are exactly the new
    frame, a node that was not in the store before, and every node
    contained in the group, at any depth, has that frame as parent. *)
Theorem framify_reparents fuel self tree label (h : heap) b :
  h !! self = Some (OBlock b) →
  well_formed fuel h self →
  ∃ h' b' frame,
    exec (Block_framify fuel self tree label) h = Some h' ∧
    h !! frame = None ∧
    (∃ fn, h' !! frame = Some (ONode fn)) ∧
    h' !! self = Some (OBlock b') ∧
    children b' = [frame] ∧
    ∀ l n, contains h self l → h !! l = Some (ONode n) →
           ∃ n', h' !! l = Some (ONode n') ∧ node_parent n' = Some frame.
Proof.
  intros Hself Hwf. destruct (Hwf) as [cs Hcs].
  destruct (well_formed_corners _ _ _ Hwf) as [[tl Htl] _].
  destruct (framify_run fuel self tree label h b cs tl Hself Hcs Htl)
    as (fn & h5 & (E5 & _ & _) & Hpar & Hrun).
  set (frame := length h) in *.
  set (h1 := foldl (bump (vsub (mkV padding padding) tl)) h cs) in *.
  assert (Hlen1 : length h1 = length h) by apply shape_length, shape_bump_all.
  assert (Hself5 : h5 !! self = Some (OBlock b)).
  { eapply shape_block; [symmetry; exact E5|]. apply lookup_app_l_Some.
    eapply shape_block; [|exact Hself]. symmetry. apply shape_bump_all. }
  set (b' := set_children [frame] b).
  set (h6 := <[self := OBlock b']> h5) in *.
  assert (Hself6 : h6 !! self = Some (OBlock b')).
  { apply list_lookup_insert_eq. by eapply lookup_lt_Some. }
  set (h7 := bump (mkV (qc 2 * padding) (qc 2 * padding)) h6
                  (bottom_right_ref b)) in *.
  assert (Hself7 : h7 !! self = Some (OBlock b')).
  { eapply shape_block; [|exact Hself6]. symmetry. apply shape_bump. }
  exists h7, b', frame. split; [|split; [|split; [|split; [|split]]]].
  - unfold exec. by rewrite Hrun.
  - by apply lookup_ge_None.
  - assert (Hf4 : (h1 ++ [ONode fn]) !! frame = Some (ONode fn)).
    { unfold frame. rewrite <- Hlen1. apply lookup_snoc. }
    destruct (shape_node _ h5 frame fn (eq_sym E5) Hf4) as [fn5 Hfn5].
    assert (Hnf : self ≠ frame) by (intros E; congruence).
    assert (Hf6 : h6 !! frame = Some (ONode fn5)).
    { unfold h6. by rewrite list_lookup_insert_ne. }
    destruct (shape_node h6 h7 frame fn5) as [fn7 Hfn7]; [|done|by eauto].
    unfold h7. by rewrite shape_bump.
  - done.
  - done.
  - intros l n Hcont Hl. pose proof (Hpar l n Hcont Hl) as Hp5.
    assert (Hp7 : parent_of h7 l = Some (Some frame)).
    { unfold h7. rewrite parent_of_bump. unfold parent_of, h6.
      destruct (decide (self = l)) as [<-|Hnl].
      - unfold parent_of in Hp5. by rewrite Hself5 in Hp5.
      - by rewrite list_lookup_insert_ne. }
    unfold parent_of in Hp7.
    destruct (h7 !! l) as [[n'|?|?]|]; try done.
    exists n'. split; [done|]. congruence.
Qed.

Lemma framify_reparents_witness :
  (nested_store !! 8%nat = Some (OBlock (mkBlock [3%nat] 4%nat 9%nat)) ∧
   well_formed 3 nested_store 8) ∧
  ∃ h' b' frame,
    exec (Block_framify 3 8 example_tree "Mix") nested_store = Some h' ∧
    nested_store !! frame = None ∧
    (∃ fn, h' !! frame = Some (ONode fn)) ∧
    h' !! 8%nat = Some (OBlock b') ∧
    children b' = [frame] ∧
    ∀ l n, contains nested_store 8 l → nested_store !! l = Some (ONode n) →
           ∃ n', h' !! l = Some (ONode n') ∧ node_parent n' = Some frame.
Proof.
  assert (H1 : nested_store !! 8%nat
               = Some (OBlock (mkBlock [3%nat] 4%nat 9%nat)))
    by (vm_compute; reflexivity).
  assert (H2 : well_formed 3 nested_store 8)
    by (eexists; vm_compute; reflexivity).
  split; [by split|].
  exact (framify_reparents 3 8 example_tree "Mix" nested_store _ H1 H2).
Defined.

(** ** Moves *)



(** Claim C6.  [move_to(e, p)] is claimed to leave [top_left(e) = p].
    With [p = Block(Block(node))] and the node at (1, 0), after
    [move_to(p, (0, 0))] the top-left corner of [p] is (-1, 0): [p] and
    its child are bound to one and the same [top_left] Vector, and the
    move adds the offset to it twice. *)
Theorem move_to_nested_block :
  fst <$> (p <~ nested_block ;;
           move_to 3 p (mkV (qc 0) (qc 0)) ;;;
           read_top_left p) one_node
  = Some (mkV (qc (-1)) (qc 0)).
Proof. by_evaluation. Qed.

(** Claim C10.  [move_by] is claimed to keep width and height.  With
    [p = Block(Block(node))] of size 2 x 2, after [move_by(p, (1, 1))]
    the size of [p] is 1 x 3. *)
Theorem move_by_nested_block_size :
  fst <$> (p <~ nested_block ;;
           w0 <~ width p ;; h0 <~ height p ;;
           move_by 3 p (mkV (qc 1) (qc 1)) ;;;
           w1 <~ width p ;; h1 <~ height p ;;
           ret (w0, h0, w1, h1)) one_node
  = Some (qc 2, qc 2, qc 1, qc 3).
Proof. by_evaluation. Qed.

(** Claim C2.  The cached corners of a Block are claimed to be the
    bounding box of its children after any adds and moves.  With
    [c = Block(node)], [p = Block(c)] and the node at (1, 0), after
    [move_by(p, (1, 0))] the cached top-left corner of [c] (and of [p])
    is (3, 0), while the only child of [c], the node, is at (2, 0). *)
Theorem move_by_breaks_cached_box :
  fst <$> (c <~ Block_init [0%nat] ;;
           p <~ Block_init [c] ;;
           move_by 3 p (mkV (qc 1) (qc 0)) ;;;
           tlp <~ read_top_left p ;;
           tlc <~ read_top_left c ;;
           tln <~ read_top_left 0%nat ;;
           ret (tlp, tlc, tln)) one_node
  = Some (mkV (qc 3) (qc 0), mkV (qc 3) (qc 0), mkV (qc 2) (qc 0)).
Proof. by_evaluation. Qed.

(** Claim C8.  [center_at_origin(e)] is claimed to leave
    [top_left(e) = (-width(e)/2, height(e)/2)], and a second call to
    change nothing.  With [p = Block(Block(node))] of size 2 x 2 at
    (1, 0), the first call leaves [p] with top-left corner (-3, 2) and
    size 4 x 3, and the second call moves the corner to (-1, 1). *)
Theorem center_at_origin_nested_block :
  fst <$> (p <~ nested_block ;;
           w0 <~ width p ;; h0 <~ height p ;;
           center_at_origin 3 p ;;;
           tl1 <~ read_top_left p ;;
           w1 <~ width p ;; h1 <~ height p ;;
           center_at_origin 3 p ;;;
           tl2 <~ read_top_left p ;;
           ret (w0, h0, tl1, w1, h1, tl2)) one_node
  = Some (qc 2, qc 2, mkV (qc (-3)) (qc 2), qc 4, qc 3, mkV (qc (-1)) (qc 1)).
Proof. by_evaluation. Qed.

(** ** Alignment *)


(** The example of the specification: three nodes of widths 5, 5, 5 and
    heights 10, 20, 30, gutter 0.  Their top-left corners end at
    (0, -10), (5, -5) and (10, 0); the row is 15 wide and 30 high. *)
Example row_align_center_three_nodes :
  fst <$> (g <~ Block_row_align_center 1 [0; 1; 2]%nat (qc 0) ;;
           tl0 <~ read_top_left 0%nat ;;
           tl1 <~ read_top_left 1%nat ;;
           tl2 <~ read_top_left 2%nat ;;
           w <~ width g ;; ht <~ height g ;;
           ret (tl0, tl1, tl2, w, ht)) three_nodes
  = Some (mkV (qc 0) (qc (-10)), mkV (qc 5) (qc (-5)), mkV (qc 10) (qc 0),
          qc 15, qc 30).
Proof. by_evaluation. Qed.

(** Claim C3.  [row_align_center] is claimed to put, for every sequence
    of elements, the top-left corner of each element at
    [(cursor_x, 0 - (max_height - height) / 2)].  For the one-element
    sequence [[p]] with [p = Block(Block(node))], of height 2, at
    (1, 0) that is (0, 0); the corner of [p] ends at (-1, 0). *)
Theorem row_align_center_nested_block :
  fst <$> (p <~ nested_block ;;
           ht <~ height p ;;
           g <~ Block_row_align_center 3 [p] (qc 0) ;;
           tl <~ read_top_left p ;;
           ret (ht, tl)) one_node
  = Some (qc 2, mkV (qc (-1)) (qc 0)).
Proof. by_evaluation. Qed.

(** The example of the specification: two nodes of widths 10 and 20 (and
    heights 7 and 9), gutter 5.  Their top-left corners end at (10, 0)
    and (0, -(7 + 5)); the column is 20 wide. *)
Example col_align_right_two_nodes :
  fst <$> (g <~ Block_col_align_right 1 [0; 1]%nat (qc 5) ;;
           tl0 <~ read_top_left 0%nat ;;
           tl1 <~ read_top_left 1%nat ;;
           w <~ width g ;;
           ret (tl0, tl1, w)) two_nodes
  = Some (mkV (qc 10) (qc 0), mkV (qc 0) (qc (-12)), qc 20).
Proof. by_evaluation. Qed.

(** Claim C4.  [col_align_right] is claimed to put, for every sequence
    of elements, the top-left corner of each element at
    [(0 + (max_width - width), cursor_y)].  For the one-element sequence
    [[p]] with [p = Block(Block(node))], of width 2, at (1, 0) that is
    (0, 0); the corner of [p] ends at (-1, 0). *)
Theorem col_align_right_nested_block :
  fst <$> (p <~ nested_block ;;
           w <~ width p ;;
           g <~ Block_col_align_right 3 [p] (qc 0) ;;
           tl <~ read_top_left p ;;
           ret (w, tl)) one_node
  = Some (qc 2, mkV (qc (-1)) (qc 0)).
Proof. by_evaluation. Qed.
